(** * vim-or-emacs.ari.lt: the poll application of [src/main.py]

    A shallow embedding of the vote model, the aggregate views
    ([index], [stats_json], [votes_json]), the submission view ([vote])
    behind its daily limit, and the HTTP error handler, followed by the
    properties the specification states about them.

    Conventions.  Python [int] is [Z]; [str] is [string], read as a
    sequence of code points below 256; a [dict] is a [gmap]; a raised
    exception is the [Raise] case of [result].  A naive [datetime] is the
    number of microseconds it denotes, and its [timestamp()] conversion to
    a float is kept abstract. *)

From Stdlib Require Import ZArith QArith Lia Lqa String Ascii DecimalString Sorted.
From stdpp Require Import gmap strings list fin_maps.

Local Open Scope Z_scope.

(** ** Exceptions and results *)

(** What [werkzeug.exceptions.HTTPException] carries: the class's status
    code, its name from the status table, and its description. *)
Record HTTPException := {
  code : option Z;
  exc_name : string;
  description : option string;
}.

Inductive exn :=
| ValueError
| KeyError
| IndexError
| LookupError
| OverflowError
| StorageError
| HTTPError (e : HTTPException).

Inductive result (A : Type) :=
| Return (a : A)
| Raise (e : exn).
Arguments Return {A} a.
Arguments Raise {A} e.

Definition rbind {A B} (r : result A) (k : A → result B) : result B :=
  match r with
  | Return a => k a
  | Raise e => Raise e
  end.

(** ** The [Editor] enumeration and the [Vote] row *)

Inductive Editor := vim | emacs.

Global Instance Editor_eq_dec : EqDecision Editor.
Proof. solve_decision. Defined.

(** [auto()] numbers the members from 1. *)
Definition value (e : Editor) : Z :=
  match e with
  | vim => 1
  | emacs => 2
  end.

Definition name (e : Editor) : string :=
  match e with
  | vim => "vim"
  | emacs => "emacs"
  end.

(** [Editor.all()] *)
Definition Editor_all : list Editor := [vim; emacs].

(** [Editor(n)]: the member whose value is [n], [ValueError] otherwise. *)
Definition Editor_call (n : Z) : result Editor :=
  match List.find (λ e, value e =? n) Editor_all with
  | Some e => Return e
  | None => Raise ValueError
  end.

Definition datetime := Z.

Record Vote := {
  id : Z;
  editor : Editor;
  voted : datetime;
}.

(** ** Builtins used by the views *)

(** One insertion step of a stable sort in decreasing key order: [x] came
    before every element of [l] and stays in front of those with an equal
    key. *)
Fixpoint insert_desc {A} (key : A → Z) (x : A) (l : list A) : list A :=
  match l with
  | [] => [x]
  | y :: l' => if key x <? key y then y :: insert_desc key x l' else x :: y :: l'
  end.

(** [sorted(l, key=key, reverse=True)] *)
Definition sorted_reverse {A} (key : A → Z) (l : list A) : list A :=
  foldr (insert_desc key) [] l.

(** [l[i]] *)
Definition getitem {A} (l : list A) (i : nat) : result A :=
  match l !! i with
  | Some x => Return x
  | None => Raise IndexError
  end.

(** [max(l, key=key)] keeps the first element that no later one exceeds,
    [min(l, key=key)] the first that no later one undercuts; both raise
    [ValueError] on an empty list. *)
Fixpoint max_from {A} (key : A → Z) (best : A) (l : list A) : A :=
  match l with
  | [] => best
  | x :: l' => max_from key (if key best <? key x then x else best) l'
  end.

Definition py_max {A} (key : A → Z) (l : list A) : result A :=
  match l with
  | [] => Raise ValueError
  | x :: l' => Return (max_from key x l')
  end.

Fixpoint min_from {A} (key : A → Z) (best : A) (l : list A) : A :=
  match l with
  | [] => best
  | x :: l' => min_from key (if key x <? key best then x else best) l'
  end.

Definition py_min {A} (key : A → Z) (l : list A) : result A :=
  match l with
  | [] => Raise ValueError
  | x :: l' => Return (min_from key x l')
  end.

(** *** [int(s)] on a string, base 10

    Following CPython's [PyLong_FromString]: white space is skipped on both
    sides, one sign may precede the digits, single underscores may separate
    digits, and anything else is a [ValueError].  Among the code points
    below 256 the white space is TAB to CR, the space, NEL and the
    no-break space, and the decimal digits are [0] to [9]. *)
Definition is_space (c : ascii) : bool :=
  let n := Z.of_N (N_of_ascii c) in
  ((9 <=? n) && (n <=? 13)) || (n =? 32) || (n =? 133) || (n =? 160).

Definition digit_value (c : ascii) : option Z :=
  let n := Z.of_N (N_of_ascii c) in
  if (48 <=? n) && (n <=? 57) then Some (n - 48) else None.

Fixpoint skip_spaces (s : string) : string :=
  match s with
  | String c s' => if is_space c then skip_spaces s' else s
  | EmptyString => s
  end.

(** The run of digits and underscores at the head of [s]: the number read
    so far, how many digits it has, and what follows the run.  [None] when
    an underscore follows an underscore or ends the run. *)
Fixpoint scan_digits (prev_underscore : bool) (acc : Z) (digits : Z) (s : string)
  : option (Z * Z * string) :=
  match s with
  | String c s' =>
      if Ascii.eqb c "_" then
        if prev_underscore then None else scan_digits true acc digits s'
      else
        match digit_value c with
        | Some d => scan_digits false (10 * acc + d) (digits + 1) s'
        | None => if prev_underscore then None else Some (acc, digits, s)
        end
  | EmptyString => if prev_underscore then None else Some (acc, digits, s)
  end.

(** [sys.int_info.default_max_str_digits]: longer digit strings are refused. *)
Definition max_str_digits : Z := 4300.

Definition py_int (s : string) : result Z :=
  let s := skip_spaces s in
  let '(sign, s) :=
    match s with
    | String "+" s' => (1, s')
    | String "-" s' => (-1, s')
    | _ => (1, s)
    end in
  match s with
  | String "_" _ => Raise ValueError
  | _ =>
      match scan_digits false 0 0 s with
      | Some (n, digits, rest) =>
          if digits =? 0 then Raise ValueError
          else match skip_spaces rest with
               | EmptyString =>
                   if max_str_digits <? digits then Raise ValueError
                   else Return (sign * n)
               | String _ _ => Raise ValueError
               end
      | None => Raise ValueError
      end
  end.

(** [request.args.get(key, default=None, type=int)]: the parameter read as
    an integer, [None] when it is absent or [int] refuses it. *)
Definition args_get_int (raw : option string) : option Z :=
  match raw with
  | None => None
  | Some s =>
      match py_int s with
      | Return n => Some n
      | Raise _ => None
      end
  end.

(** [d[k] += 1], a [KeyError] when [k] is not a key of [d]. *)
Definition dict_incr (k : Z) (d : gmap Z Z) : result (gmap Z Z) :=
  match d !! k with
  | Some c => Return (<[k := c + 1]> d)
  | None => Raise KeyError
  end.

(** [sum(d.values())] *)
Definition sum_values (d : gmap Z Z) : Z :=
  map_fold (λ _ c acc, c + acc) 0 d.

(** ** [GET /]: the winner *)

(** Number of stored votes for one editor. *)
Definition count_editor (e : Editor) (votes : list Vote) : Z :=
  Z.of_nat (length (filter (λ v, editor v = e) votes)).

(** [query(Vote.editor, func.count(Vote.editor)).group_by(Vote.editor).all()]:
    one row per editor that has votes.  The database fixes no order of the
    rows; the rows are listed here in enumeration order and the theorems
    quantify over their permutations. *)
Definition group_by_editor (votes : list Vote) : list (Editor * Z) :=
  filter (λ row, 0 < row.2) (map (λ e, (e, count_editor e votes)) Editor_all).

(** The [final_result] that [index] hands to its template. *)
Definition index (editor_counts : list (Editor * Z)) : result (option Editor * Z) :=
  if decide (length editor_counts = 0%nat) then Return (None, 0)
  else if decide (length editor_counts = 1%nat) then
    rbind (getitem editor_counts 0) (λ row, Return (Some row.1, row.2))
  else
    let sorted_counts := take 2 (sorted_reverse snd editor_counts) in
    rbind (getitem sorted_counts 0) (λ top,
    rbind (getitem sorted_counts 1) (λ next,
      if next.2 <? top.2 then Return (Some top.1, top.2)
      else Return (None, top.2))).

(** ** [GET /stats.json] *)

(** The loop [for vote in votes: vote_counts[vote.editor.value] += 1]. *)
Fixpoint count_loop (votes : list Vote) (vote_counts : gmap Z Z) : result (gmap Z Z) :=
  match votes with
  | [] => Return vote_counts
  | vote :: rest =>
      rbind (dict_incr (value (editor vote)) vote_counts) (count_loop rest)
  end.

(** [{editor.value: 0 for editor in Editor.all()}] *)
Definition zero_counts : gmap Z Z :=
  foldl (λ d e, <[value e := 0]> d) ∅ Editor_all.

(** ** The query of [GET /votes.json]

    A filter compares the id with a bound parameter or the editor with a
    member. *)
Inductive Filter :=
| id_ge (n : Z)
| id_le (n : Z)
| editor_eq (e : Editor).

Definition passes (f : Filter) (v : Vote) : bool :=
  match f with
  | id_ge n => n <=? id v
  | id_le n => id v <=? n
  | editor_eq e => bool_decide (editor v = e)
  end.

(** The largest integer of SQLite, which stores signed 64-bit integers. *)
Definition max_rowid : Z := 2 ^ 63 - 1.

(** Handing a filter's parameter to SQLite: an integer outside the signed
    64-bit range is an [OverflowError]. *)
Definition bind_parameter (f : Filter) : result () :=
  match f with
  | id_ge n | id_le n =>
      if (- 2 ^ 63 <=? n) && (n <=? max_rowid) then Return () else Raise OverflowError
  | editor_eq _ => Return ()
  end.

Fixpoint bind_parameters (filters : list Filter) : result () :=
  match filters with
  | [] => Return ()
  | f :: rest => rbind (bind_parameter f) (λ _, bind_parameters rest)
  end.

(** [Vote.query.filter] applied to all of [filters], then [.all()]: the
    parameters are bound and the rows that pass every filter come back. *)
Definition query_filter (filters : list Filter) (rows : list Vote) : result (list Vote) :=
  rbind (bind_parameters filters) (λ _,
    Return (List.filter (λ v, forallb (λ f, passes f v) filters) rows)).

Section Timestamp.
(** [datetime.timestamp()] and the floats it returns. *)
Context {float : Type} (timestamp : datetime → float).

(** The object that [stats_json] serialises. *)
Record Stats := {
  stats_total : Z;
  stats_votes : gmap Z Z;
  stats_latest : option float;
  stats_first : option float;
}.

Definition stats_json (votes : list Vote) : result Stats :=
  let total_votes := Z.of_nat (length votes) in
  let vote_counts := zero_counts in
  rbind (if decide (votes ≠ [])
         then rbind (py_max voted votes) (λ v, Return (Some (voted v)))
         else Return None) (λ latest_vote,
  rbind (if decide (votes ≠ [])
         then rbind (py_min voted votes) (λ v, Return (Some (voted v)))
         else Return None) (λ first_vote,
  rbind (count_loop votes vote_counts) (λ vote_counts,
    Return {| stats_total := total_votes;
              stats_votes := vote_counts;
              stats_latest := timestamp <$> latest_vote;
              stats_first := timestamp <$> first_vote |}))).

(** ** [GET /votes.json] *)

(** One value of the returned object. *)
Record VoteJson := {
  json_editor : Z;
  json_voted : float;
}.

Definition votes_json (rows : list Vote) (from to editor_arg : option string)
  : result (gmap Z VoteJson) :=
  let from_id := args_get_int from in
  let to_id := args_get_int to in
  let editor_ord := args_get_int editor_arg in
  let filters : list Filter := [] in
  let filters :=
    match from_id with
    | Some n => filters ++ [id_ge n]
    | None => filters
    end in
  let filters :=
    match to_id with
    | Some n => filters ++ [id_le n]
    | None => filters
    end in
  let filters :=
    match editor_ord with
    | Some n =>
        match Editor_call n with
        | Return e => filters ++ [editor_eq e]
        | Raise _ => filters
        end
    | None => filters
    end in
  rbind (query_filter filters rows) (λ selected,
    Return (foldl (λ votes vote,
                     <[id vote := {| json_editor := value (editor vote);
                                     json_voted := timestamp (voted vote) |}]> votes)
                  ∅ selected)).

End Timestamp.

(** ** The database session

    The table of committed rows, the rows that the open transaction has
    inserted and not yet committed, and the objects added to the session
    and not yet flushed. *)
Record Db := {
  rows : list Vote;
  tx : list Vote;
  pending : list Editor;
}.

(** How the database behaves while one request is handled. *)
Inductive Storage :=
| Healthy
| FailsOnInsert
| FailsOnCommit
| FailsOnRefresh.

(** Views run in a state and exception monad over the session. *)
Definition M (A : Type) : Type := Db → result A * Db.

Definition ret {A} (a : A) : M A := λ s, (Return a, s).

Definition raise {A} (e : exn) : M A := λ s, (Raise e, s).

Definition bind {A B} (m : M A) (k : A → M B) : M B :=
  λ s, match m s with
       | (Return a, s') => k a s'
       | (Raise e, s') => (Raise e, s')
       end.

(** [try: body except Exception: handler] *)
Definition try_except {A} (body : M A) (handler : M A) : M A :=
  λ s, match body s with
       | (Return a, s') => (Return a, s')
       | (Raise _, s') => handler s'
       end.

Notation "'let*' x := m 'in' k" := (bind m (λ x, k))
  (at level 10, x name, m at level 100, k at level 200).

(** The integer primary key that SQLite gives a new row: 1 in an empty
    table, else one more than the largest key in the table; once the
    largest possible key is in the table, an unused positive key that
    SQLite draws at random, given here by [rowid_draw] from the table. *)
Definition next_id (rowid_draw : list Vote → Z) (table : list Vote) : Z :=
  match table with
  | [] => 1
  | v :: table' =>
      let largest := foldr Z.max (id v) (id <$> table') in
      if largest =? max_rowid then rowid_draw table else largest + 1
  end.

(** [db.session.add(vote)] *)
Definition session_add (e : Editor) : M () :=
  λ s, (Return (), {| rows := rows s; tx := tx s; pending := pending s ++ [e] |}).

(** The flush at the start of a commit: each pending object is inserted
    with a fresh id and the [utcnow] default. *)
Fixpoint flush (storage : Storage) (rowid_draw : list Vote → Z) (utcnow : datetime)
    (objects : list Editor) (inserted : list Vote) : M (list Vote) :=
  match objects with
  | [] => ret inserted
  | e :: rest =>
      λ s, match storage with
           | FailsOnInsert => (Raise StorageError, s)
           | _ =>
               let row := {| id := next_id rowid_draw (rows s ++ tx s);
                             editor := e; voted := utcnow |} in
               flush storage rowid_draw utcnow rest (inserted ++ [row])
                 {| rows := rows s; tx := tx s ++ [row]; pending := rest |}
           end
  end.

(** [db.session.commit()]: flush, then make the transaction's rows part of
    the table.  Returns the rows it has stored. *)
Definition session_commit (storage : Storage) (rowid_draw : list Vote → Z)
    (utcnow : datetime) : M (list Vote) :=
  λ s, (let* inserted := flush storage rowid_draw utcnow (pending s) [] in
        λ s, match storage with
             | FailsOnCommit => (Raise StorageError, s)
             | _ => (Return inserted,
                     {| rows := rows s ++ tx s; tx := []; pending := pending s |})
             end) s.

(** Reading an attribute of a committed object loads it again. *)
Definition refresh (storage : Storage) (v : Vote) : M Vote :=
  match storage with
  | FailsOnRefresh => raise StorageError
  | _ => ret v
  end.

(** [db.session.rollback()] *)
Definition session_rollback : M () :=
  λ s, (Return (), {| rows := rows s; tx := []; pending := [] |}).

(** ** Responses and HTTP errors *)

Inductive Body :=
| render_http_j2 (code : option Z) (summary description : string)
| plain_text (text : string)
| redirect (location : string).

(** What goes back to the client, with the seconds slept before it is
    sent and the messages flashed into its session. *)
Record Response := {
  body : Body;
  status : Z;
  slept : option Q;
  flashed : list string;
}.

(** [str(n)] *)
Definition str_of_int (n : Z) : string := NilZero.string_of_int (Z.to_int n).

(** [s.lower()] on code points below 256. *)
Definition lower_char (c : ascii) : ascii :=
  let n := Z.of_N (N_of_ascii c) in
  if ((65 <=? n) && (n <=? 90)) || ((192 <=? n) && (n <=? 222) && negb (n =? 215))
  then ascii_of_N (Z.to_N (n + 32))
  else c.

Fixpoint lower (s : string) : string :=
  match s with
  | EmptyString => EmptyString
  | String c s' => String (lower_char c) (lower s')
  end.

(** [d or fallback] on an optional string. *)
Definition str_or (d : option string) (fallback : string) : string :=
  match d with
  | Some (String c s) => String c s
  | _ => fallback
  end.

(** The exceptions the application raises, with werkzeug's name and
    description of each; the limiter's carries the limit as description. *)
Definition BadRequest : HTTPException :=
  {| code := Some 400;
     exc_name := "Bad Request";
     description := Some "The browser (or proxy) sent a request that this server could not understand."%string |}.

Definition InternalServerError : HTTPException :=
  {| code := Some 500;
     exc_name := "Internal Server Error";
     description := Some "The server encountered an internal error and was unable to complete your request. Either the server is overloaded or there is an error in the application."%string |}.

Definition RateLimitExceeded : HTTPException :=
  {| code := Some 429;
     exc_name := "Too Many Requests";
     description := Some "1 per 1 day"%string |}.

(** [flask.abort(code)]: the exception registered for the code, of which
    the application uses two. *)
Definition abort {A} (c : Z) : M A :=
  if c =? 400 then raise (HTTPError BadRequest)
  else if c =? 500 then raise (HTTPError InternalServerError)
  else raise LookupError.

(** [error_handler]; [random] is what [SystemRandom().random()] draws. *)
Definition error_handler (random : Q) (e : HTTPException) : Response :=
  if decide (code e = Some 429) then
    {| body := plain_text ("too many requests : " +:+ str_or (description e) "<limit>");
       status := 429;
       slept := Some (random * 15)%Q;
       flashed := [] |}
  else
    {| body := render_http_j2
                 (code e)
                 (lower (exc_name e))
                 (lower (str_or (description e)
                           ("http error code " +:+
                            match code e with
                            | Some c => str_of_int c
                            | None => "None"
                            end)));
       status := match code e with
                 | Some c => if c =? 0 then 200 else c
                 | None => 200
                 end;
       slept := None;
       flashed := [] |}.

(** ** [POST /]: the submission *)

(** The view, given the form's [voe] field. *)
Definition vote (storage : Storage) (rowid_draw : list Vote → Z) (utcnow : datetime)
    (voe : option string) : M Response :=
  let* voe := match voe with
              | Some (String c s) => ret (String c s)
              | _ => abort 400
              end in
  let* editor := try_except
                   (λ s, (rbind (py_int voe) Editor_call, s))
                   (abort 400) in
  let* message := try_except
    (let* _ := session_add editor in
     let* stored := session_commit storage rowid_draw utcnow in
     let* vote := (λ s, (getitem stored (length stored - 1), s)) in
     let* vote := refresh storage vote in
     ret ("Your vote for `" +:+ name editor +:+ "` with ID `" +:+
          str_of_int (id vote) +:+ "` has been recorded."))
    (let* _ := session_rollback in abort 500) in
  ret {| body := redirect "/"; status := 302; slept := None; flashed := [message] |}.

(** ** The daily limit

    The view carries its own limit, ["1 per day"], which replaces the
    default limits on this route; the key is the remote address and the
    strategy the moving window of the [limits] library, kept in memory:
    per key, the times of the admitted hits, newest first.  A hit is
    admitted, and recorded, unless the [limit]-th newest hit is no older
    than [expiry]. *)
Definition acquire_entry (key : string) (limit : nat) (expiry : Q) (now : Q)
    (events : gmap string (list Q)) : bool * gmap string (list Q) :=
  if (limit <? 1)%nat then (false, events)
  else
    let entries := default [] (events !! key) in
    match entries !! (limit - 1)%nat with
    | Some atime =>
        if Qle_bool (now - expiry) atime then (false, events)
        else (true, <[key := now :: entries]> events)
    | None => (true, <[key := now :: entries]> events)
    end.

(** Seconds in ["1 per day"]. *)
Definition day : Q := 86400.

(** A submission and what the environment answers while it is handled:
    the clock the limiter reads, the [utcnow] of the insert, the behaviour
    of the database, the random draw of the error handler, and the key that
    SQLite draws for a table whose largest key is taken. *)
Record Request := {
  remote_addr : option string;
  form_voe : option string;
  time : Q;
  utcnow : datetime;
  storage : Storage;
  random : Q;
  rowid_draw : list Vote → Z;
}.

(** [flask_limiter.util.get_remote_address] *)
Definition get_remote_address (req : Request) : string :=
  str_or (remote_addr req) "127.0.0.1".

(** The application between requests. *)
Record App := {
  db : Db;
  events : gmap string (list Q);
}.

(** [POST /] from the limiter's check before the request to the removal
    of the session after it. *)
Definition post_root (req : Request) (app : App) : Response * App :=
  match acquire_entry (get_remote_address req) 1 day (time req) (events app) with
  | (false, _) => (error_handler (random req) RateLimitExceeded, app)
  | (true, events') =>
      let '(r, db') := vote (storage req) (rowid_draw req) (utcnow req) (form_voe req) (db app) in
      let response :=
        match r with
        | Return response => response
        | Raise (HTTPError e) => error_handler (random req) e
        | Raise _ => error_handler (random req) InternalServerError
        end in
      (response, {| db := snd (session_rollback db'); events := events' |})
  end.

(** A sequence of submissions, oldest first. *)
Fixpoint run (reqs : list Request) (app : App) : list Response * App :=
  match reqs with
  | [] => ([], app)
  | req :: reqs' =>
      let '(response, app') := post_root req app in
      let '(responses, app'') := run reqs' app' in
      (response :: responses, app'')
  end.

(** ** [GET /editors.json] *)

(** [{editor.value: editor.name for editor in Editor.all()}] *)
Definition editors_json : gmap Z string :=
  foldl (λ d e, <[value e := name e]> d) ∅ Editor_all.

(** ** The sitemap

    [pat.sub(r"\1", rule)] for the pattern [<.+?:(.+?)>]: every match,
    found from the left and not overlapping, is replaced by its group. *)
Definition is_newline (c : ascii) : bool := Ascii.eqb c "010".

(** [(.+?)>] at the head of [s], the group having read [acc] already: the
    shortest run of at least one character, none a newline, that a [>]
    follows.  Returns the group and what follows the [>]. *)
Fixpoint match_name (acc : string) (s : string) : option (string * string) :=
  match s with
  | EmptyString => None
  | String c s' =>
      if negb (String.eqb acc EmptyString) && Ascii.eqb c ">" then Some (acc, s')
      else if is_newline c then None
      else match_name (acc +:+ String c EmptyString) s'
  end.

(** [.+?:(.+?)>] at the head of [s]; [nonempty] tells whether the first
    run has a character already.  The run ends at the first colon after
    which the rest matches. *)
Fixpoint match_converter (nonempty : bool) (s : string) : option (string * string) :=
  match s with
  | EmptyString => None
  | String c s' =>
      let longer := if is_newline c then None else match_converter true s' in
      if nonempty && Ascii.eqb c ":" then
        match match_name EmptyString s' with
        | Some r => Some r
        | None => longer
        end
      else longer
  end.

(** The pattern at the head of [s]. *)
Definition match_at (s : string) : option (string * string) :=
  match s with
  | String "<" s' => match_converter false s'
  | _ => None
  end.

(** The substitution from the left; [skip] counts the characters of [s]
    that the last match has consumed. *)
Fixpoint sub_from (skip : nat) (s : string) : string :=
  match s with
  | EmptyString => EmptyString
  | String c s' =>
      match skip with
      | S k => sub_from k s'
      | O =>
          match match_at s with
          | Some (group, rest) =>
              group +:+ sub_from (String.length s' - String.length rest) s'
          | None => String c (sub_from 0 s')
          end
      end
  end.

Definition pat_sub (rule : string) : string := sub_from 0 rule.

(** [app.config["PREFERRED_URL_SCHEME"]] and [app.config["DOMAIN"]] *)
Definition PREFERRED_URL_SCHEME : string := "https".

Definition DOMAIN : string := "vim-or-emacs.ari.lt".

Definition surl (loc : string) : string :=
  let u := "<url>" in
  let u := u +:+ ("<loc>" +:+ PREFERRED_URL_SCHEME +:+ "://" +:+ DOMAIN +:+ loc +:+ "</loc>") in
  let u := u +:+ "<priority>1.0</priority>" in
  u +:+ "</url>".

(** The double quote. *)
Definition dquote : string := String (ascii_of_nat 34) EmptyString.

(** The initial value of [sitemap]. *)
Definition sitemap_header : string :=
  "<?xml version=" +:+ dquote +:+ "1.0" +:+ dquote +:+ " encoding=" +:+ dquote +:+
  "UTF-8" +:+ dquote +:+ "?><urlset xmlns=" +:+ dquote +:+
  "http://www.sitemaps.org/schemas/sitemap/0.9" +:+ dquote +:+ ">".

(** The loop over [app.url_map.iter_rules()], given the rules registered
    when it runs, in the order of their registration. *)
Definition sitemap (rules : list string) : string :=
  foldl (λ sitemap rule, sitemap +:+ surl (pat_sub rule)) sitemap_header rules.

(** The body of [GET /sitemap.xml]. *)
Definition sitemap_xml (rules : list string) : string :=
  let esitemap := sitemap rules in
  esitemap +:+ "</urlset>".

(** ** Notions used in the statements *)

(** The map with one counter per member of the enumeration. *)
Definition counts_map (nv ne : Z) : gmap Z Z := <[2 := ne]> (<[1 := nv]> ∅).

(** A selection that the view turns into an editor. *)
Definition selects (voe : option string) (e : Editor) : Prop :=
  ∃ c s n, voe = Some (String c s) ∧ py_int (String c s) = Return n ∧ value e = n.

(** A selection that is missing, not a number, or a number naming no
    member of the enumeration. *)
Definition bad_selection (voe : option string) : Prop :=
  voe = None ∨ voe = Some EmptyString
  ∨ (∃ s ex, voe = Some s ∧ py_int s = Raise ex)
  ∨ (∃ s n, voe = Some s ∧ py_int s = Return n ∧ ∀ e, value e ≠ n).

(** The part of the view that talks to the database. *)
Definition store_vote (storage : Storage) (rowid_draw : list Vote → Z)
    (utcnow : datetime) (e : Editor) : M string :=
  try_except
    (let* _ := session_add e in
     let* stored := session_commit storage rowid_draw utcnow in
     let* vote := (λ s, (getitem stored (length stored - 1), s)) in
     let* vote := refresh storage vote in
     ret ("Your vote for `" +:+ name e +:+ "` with ID `" +:+
          str_of_int (id vote) +:+ "` has been recorded."))
    (let* _ := session_rollback in abort 500).

(** The newest admitted hit of a key. *)
Definition last_hit (events : gmap string (list Q)) (key : string) : option Q :=
  head (default [] (events !! key)).

(** The generic error page: the [http.j2] template given the error's status
    code, a summary and a description. *)
Definition generic_error_page (e : HTTPException) (response : Response) : Prop :=
  ∃ summary description,
    body response = render_http_j2 (code e) summary description.

(** The application between requests holds no open transaction and no
    pending object, and the ids of its table are distinct. *)
Definition store_wf (app : App) : Prop :=
  tx (db app) = [] ∧ pending (db app) = [] ∧ NoDup (id <$> rows (db app)).

(** The stored votes used to instantiate the listing theorems. *)
Definition sample_rows : list Vote :=
  [ {| id := 3; editor := vim; voted := 30 |};
    {| id := 7; editor := vim; voted := 70 |};
    {| id := 8; editor := emacs; voted := 80 |};
    {| id := 12; editor := vim; voted := 120 |} ].

(** The character [c] occurs in [s]. *)
Definition occurs (c : ascii) (s : string) : Prop :=
  c ∈ list_ascii_of_string s.

(** The filters that [votes_json] builds from what it has read. *)
Definition request_filters (from_id to_id editor_ord : option Z) : list Filter :=
  match from_id with Some n => [id_ge n] | None => [] end ++
  match to_id with Some n => [id_le n] | None => [] end ++
  match editor_ord with
  | Some n => match Editor_call n with Return e => [editor_eq e] | Raise _ => [] end
  | None => []
  end.

(** What is read as a bound, if anything, is a signed 64-bit integer. *)
Definition bound_fits (bound : option Z) : Prop :=
  ∀ n, bound = Some n → - 2 ^ 63 ≤ n ≤ max_rowid.

Section Listing.
Context {float : Type} (timestamp : datetime → float).

(** The object that [votes_json] builds from the selected rows. *)
Definition listing_of (selected : list Vote) : gmap Z VoteJson :=
  foldl (λ votes vote,
           <[id vote := {| json_editor := value (editor vote);
                           json_voted := timestamp (voted vote) |}]> votes)
        ∅ selected.

End Listing.

(** * Properties *)

Lemma count_editor_nonneg e votes : 0 ≤ count_editor e votes.
Proof. unfold count_editor. lia. Qed.

Lemma group_by_editor_cases votes :
  let nv := count_editor vim votes in
  let ne := count_editor emacs votes in
  group_by_editor votes =
    (if decide (0 < nv) then [(vim, nv)] else []) ++
    (if decide (0 < ne) then [(emacs, ne)] else []).
Proof.
  intros nv ne. unfold group_by_editor. cbn [Editor_all map].
  rewrite !filter_cons, filter_nil. cbn [snd]. fold nv ne.
  repeat case_decide; reflexivity.
Qed.

Lemma count_editor_total votes :
  count_editor vim votes + count_editor emacs votes = Z.of_nat (length votes).
Proof.
  unfold count_editor. induction votes as [|v votes IH]; [reflexivity|].
  rewrite !filter_cons. destruct v as [i [] t]; cbn [editor];
    repeat case_decide; try congruence; cbn [length]; lia.
Qed.

Lemma insert_desc_perm {A} (key : A → Z) (x : A) (l : list A) :
  insert_desc key x l ≡ₚ x :: l.
Proof.
  induction l as [|y l IH]; cbn [insert_desc]; [done|].
  destruct (key x <? key y); [|done].
  rewrite IH. apply perm_swap.
Qed.

(** [sorted_reverse] rearranges its list in decreasing key order. *)
Lemma sorted_reverse_perm {A} (key : A → Z) (l : list A) :
  sorted_reverse key l ≡ₚ l.
Proof.
  unfold sorted_reverse. induction l as [|x l IH]; cbn [foldr]; [done|].
  by rewrite insert_desc_perm, IH.
Qed.

Lemma insert_desc_sorted {A} (key : A → Z) (x : A) (l : list A) :
  Sorted (λ a b, key b ≤ key a) l →
  Sorted (λ a b, key b ≤ key a) (insert_desc key x l).
Proof.
  induction 1 as [|y l Hs IH Hhd]; cbn [insert_desc].
  - by repeat constructor.
  - destruct (Z.ltb_spec (key x) (key y)).
    + constructor; [exact IH|].
      destruct Hhd as [|z l Hz]; cbn [insert_desc].
      * constructor. lia.
      * destruct (Z.ltb_spec (key x) (key z)); constructor; [exact Hz | lia].
    + constructor; [by constructor | by constructor].
Qed.

Lemma sorted_reverse_sorted {A} (key : A → Z) (l : list A) :
  Sorted (λ a b, key b ≤ key a) (sorted_reverse key l).
Proof.
  unfold sorted_reverse. induction l as [|x l IH]; cbn [foldr]; [constructor|].
  by apply insert_desc_sorted.
Qed.

Lemma index_two_groups (e1 e2 : Editor) (c1 c2 : Z) :
  index [(e1, c1); (e2, c2)] =
    if c2 <? c1 then Return (Some e1, c1)
    else if c1 <? c2 then Return (Some e2, c2)
    else Return (None, c1).
Proof.
  unfold index, sorted_reverse. cbn.
  destruct (Z.ltb_spec c1 c2), (Z.ltb_spec c2 c1); cbn;
    repeat match goal with
           | |- context [?a <? ?b] => destruct (Z.ltb_spec a b)
           end; try lia; try reflexivity.
Qed.

(** C1. On the grouped counts of any stored votes, in whatever order the
    database lists the groups, [index] yields [(None, 0)] for no group, the
    group itself for one group, the editor with the larger count and that
    count for two unequal groups, and [(None, tied count)] for two equal
    groups. *)
Theorem index_winner_cases (votes : list Vote) (editor_counts : list (Editor * Z)) :
  editor_counts ≡ₚ group_by_editor votes →
  (editor_counts = [] ∧ votes = [] ∧ index editor_counts = Return (None, 0))
  ∨ (∃ e c, editor_counts = [(e, c)] ∧ c = count_editor e votes ∧
       index editor_counts = Return (Some e, c))
  ∨ (∃ e1 c1 e2 c2,
       editor_counts = [(e1, c1); (e2, c2)] ∧ e1 ≠ e2 ∧
       c1 = count_editor e1 votes ∧ c2 = count_editor e2 votes ∧
       ((c2 < c1 ∧ index editor_counts = Return (Some e1, c1)) ∨
        (c1 < c2 ∧ index editor_counts = Return (Some e2, c2)) ∨
        (c1 = c2 ∧ index editor_counts = Return (None, c1)))).
Proof.
  intros Hperm. rewrite group_by_editor_cases in Hperm.
  pose proof (count_editor_total votes) as Htot.
  pose proof (count_editor_nonneg vim votes) as Hv.
  pose proof (count_editor_nonneg emacs votes) as He.
  assert (Htwo : ∀ e1 e2, e1 ≠ e2 →
    editor_counts = [(e1, count_editor e1 votes); (e2, count_editor e2 votes)] →
    ∃ e1 c1 e2 c2,
       editor_counts = [(e1, c1); (e2, c2)] ∧ e1 ≠ e2 ∧
       c1 = count_editor e1 votes ∧ c2 = count_editor e2 votes ∧
       ((c2 < c1 ∧ index editor_counts = Return (Some e1, c1)) ∨
        (c1 < c2 ∧ index editor_counts = Return (Some e2, c2)) ∨
        (c1 = c2 ∧ index editor_counts = Return (None, c1)))).
  { intros e1 e2 Hne ->. eexists e1, _, e2, _.
    split; [reflexivity|]. split; [exact Hne|]. split; [reflexivity|].
    split; [reflexivity|]. rewrite index_two_groups.
    destruct (Z.ltb_spec (count_editor e2 votes) (count_editor e1 votes));
      [left; done|].
    destruct (Z.ltb_spec (count_editor e1 votes) (count_editor e2 votes));
      [right; left; done|].
    right; right. split; [lia | reflexivity]. }
  destruct (decide (0 < count_editor vim votes)) as [Hpv|Hzv],
           (decide (0 < count_editor emacs votes)) as [Hpe|Hze];
    cbn [app] in Hperm.
  - right; right. symmetry in Hperm.
    apply Permutation_length_2_inv in Hperm as [->| ->].
    + by apply (Htwo vim emacs).
    + by apply (Htwo emacs vim).
  - right; left. apply Permutation_singleton_r in Hperm as ->.
    by exists vim, (count_editor vim votes).
  - right; left. apply Permutation_singleton_r in Hperm as ->.
    by exists emacs, (count_editor emacs votes).
  - left. apply Permutation_nil_r in Hperm as ->.
    split; [reflexivity|]. split; [|reflexivity].
    destruct votes; [reflexivity | cbn [length] in Htot; lia].
Qed.

(** The theorem at three stored votes whose groups the database lists
    with emacs first. *)
Lemma index_winner_cases_witness :
  let votes := [ {| id := 1; editor := vim; voted := 10 |};
                 {| id := 2; editor := emacs; voted := 20 |};
                 {| id := 3; editor := vim; voted := 30 |} ] in
  let editor_counts := [(emacs, 1); (vim, 2)] in
  editor_counts ≡ₚ group_by_editor votes ∧
  ((editor_counts = [] ∧ votes = [] ∧ index editor_counts = Return (None, 0))
  ∨ (∃ e c, editor_counts = [(e, c)] ∧ c = count_editor e votes ∧
       index editor_counts = Return (Some e, c))
  ∨ (∃ e1 c1 e2 c2,
       editor_counts = [(e1, c1); (e2, c2)] ∧ e1 ≠ e2 ∧
       c1 = count_editor e1 votes ∧ c2 = count_editor e2 votes ∧
       ((c2 < c1 ∧ index editor_counts = Return (Some e1, c1)) ∨
        (c1 < c2 ∧ index editor_counts = Return (Some e2, c2)) ∨
        (c1 = c2 ∧ index editor_counts = Return (None, c1))))).
Proof.
  intros votes editor_counts.
  assert (H : editor_counts ≡ₚ group_by_editor votes)
    by (vm_compute; apply perm_swap).
  split; [exact H | exact (index_winner_cases votes editor_counts H)].
Defined.

(** The four cases the specification lists. *)
Example index_vim3_emacs1 : index [(vim, 3); (emacs, 1)] = Return (Some vim, 3).
Proof. reflexivity. Qed.

Example index_tie : index [(vim, 2); (emacs, 2)] = Return (None, 2).
Proof. reflexivity. Qed.

Example index_no_votes : index [] = Return (None, 0).
Proof. reflexivity. Qed.

Example index_emacs_only : index [(emacs, 1)] = Return (Some emacs, 1).
Proof. reflexivity. Qed.

(** ** Statistics *)

Lemma max_from_spec {A} (key : A → Z) (l : list A) (best : A) :
  let m := max_from key best l in
  m ∈ best :: l ∧ ∀ x, x ∈ best :: l → key x ≤ key m.
Proof.
  revert best. induction l as [|y l IH]; intros best; cbn [max_from].
  - split; [left|]. intros x ->%list_elem_of_singleton. lia.
  - specialize (IH (if key best <? key y then y else best)).
    cbv zeta in IH. destruct IH as [Hin Hle].
    destruct (Z.ltb_spec (key best) (key y)) as [Hlt|Hge].
    + split.
      * apply elem_of_cons in Hin as [->|Hin]; [right; left | by do 2 right].
      * intros x [->|Hx]%elem_of_cons.
        -- etrans; [|apply (Hle y); left]. lia.
        -- apply Hle, Hx.
    + split.
      * apply elem_of_cons in Hin as [->|Hin]; [left | by do 2 right].
      * intros x [->|[->|Hx]%elem_of_cons]%elem_of_cons.
        -- apply Hle. left.
        -- etrans; [|apply (Hle best); left]. lia.
        -- apply Hle. by right.
Qed.

Lemma min_from_spec {A} (key : A → Z) (l : list A) (best : A) :
  let m := min_from key best l in
  m ∈ best :: l ∧ ∀ x, x ∈ best :: l → key m ≤ key x.
Proof.
  revert best. induction l as [|y l IH]; intros best; cbn [min_from].
  - split; [left|]. intros x ->%list_elem_of_singleton. lia.
  - specialize (IH (if key y <? key best then y else best)).
    cbv zeta in IH. destruct IH as [Hin Hle].
    destruct (Z.ltb_spec (key y) (key best)) as [Hlt|Hge].
    + split.
      * apply elem_of_cons in Hin as [->|Hin]; [right; left | by do 2 right].
      * intros x [->|Hx]%elem_of_cons.
        -- etrans; [apply (Hle y); left|]. lia.
        -- apply Hle, Hx.
    + split.
      * apply elem_of_cons in Hin as [->|Hin]; [left | by do 2 right].
      * intros x [->|[->|Hx]%elem_of_cons]%elem_of_cons.
        -- apply Hle. left.
        -- etrans; [apply (Hle best); left|]. lia.
        -- apply Hle. by right.
Qed.

Lemma count_editor_cons e v votes :
  count_editor e (v :: votes) =
    (if decide (editor v = e) then 1 else 0) + count_editor e votes.
Proof.
  unfold count_editor. rewrite filter_cons.
  case_decide; cbn [length]; lia.
Qed.

Lemma zero_counts_eq : zero_counts = counts_map 0 0.
Proof. reflexivity. Qed.

Lemma counts_map_incr_vim nv ne :
  dict_incr (value vim) (counts_map nv ne) = Return (counts_map (nv + 1) ne).
Proof.
  unfold dict_incr, counts_map. cbn [value].
  rewrite lookup_insert_ne, lookup_insert_eq by done. reflexivity.
Qed.

Lemma counts_map_incr_emacs nv ne :
  dict_incr (value emacs) (counts_map nv ne) = Return (counts_map nv (ne + 1)).
Proof.
  unfold dict_incr, counts_map. cbn [value].
  rewrite lookup_insert_eq. reflexivity.
Qed.

Lemma count_loop_counts votes nv ne :
  count_loop votes (counts_map nv ne) =
    Return (counts_map (nv + count_editor vim votes) (ne + count_editor emacs votes)).
Proof.
  revert nv ne. induction votes as [|v votes IH]; intros nv ne.
  - cbn. unfold count_editor. cbn. by rewrite !Z.add_0_r.
  - cbn [count_loop]. rewrite !count_editor_cons.
    destruct v as [i [] t]; cbn [editor].
    + rewrite counts_map_incr_vim. cbn [rbind]. rewrite IH.
      rewrite decide_True, decide_False by done. do 2 f_equal; lia.
    + rewrite counts_map_incr_emacs. cbn [rbind]. rewrite IH.
      rewrite decide_False, decide_True by done. do 2 f_equal; lia.
Qed.

Lemma sum_values_counts_map nv ne : sum_values (counts_map nv ne) = nv + ne.
Proof.
  unfold sum_values, counts_map.
  rewrite map_fold_insert_L; [|intros; lia|by rewrite lookup_insert_ne].
  rewrite map_fold_insert_L; [|intros; lia|done].
  rewrite map_fold_empty. lia.
Qed.

(** ** Enumeration lookup *)

Lemma Editor_call_Return n e : Editor_call n = Return e ↔ value e = n.
Proof.
  unfold Editor_call, Editor_all. cbn [List.find value].
  destruct (Z.eqb_spec 1 n) as [<-|H1]; [destruct e; cbn; split; congruence|].
  destruct (Z.eqb_spec 2 n) as [<-|H2]; [destruct e; cbn; split; congruence|].
  destruct e; cbn; split; congruence.
Qed.

Lemma Editor_call_Raise n : (∀ e, value e ≠ n) → Editor_call n = Raise ValueError.
Proof.
  intros Hn. unfold Editor_call, Editor_all. cbn [List.find value].
  destruct (Z.eqb_spec 1 n) as [H1|_]; [destruct (Hn vim H1)|].
  destruct (Z.eqb_spec 2 n) as [H2|_]; [destruct (Hn emacs H2)|].
  reflexivity.
Qed.

(** ** Filtered listing *)

Lemma foldl_insert_lookup {B} (g : Vote → B) (l : list Vote) (m0 : gmap Z B) i entry :
  NoDup (id <$> l) →
  (foldl (λ m v, <[id v := g v]> m) m0 l !! i = Some entry ↔
    (∃ v, v ∈ l ∧ id v = i ∧ entry = g v) ∨
    ((i ∉ id <$> l) ∧ m0 !! i = Some entry)).
Proof.
  revert m0. induction l as [|v l IH]; intros m0 Hnd.
  - cbn. split.
    + intros H. right. split; [apply not_elem_of_nil | exact H].
    + intros [(v & Hv & _)|[_ H]]; [by apply elem_of_nil in Hv | exact H].
  - rewrite fmap_cons in Hnd. apply NoDup_cons in Hnd as [Hfresh Hnd].
    cbn [foldl]. rewrite (IH _ Hnd). rewrite fmap_cons. split.
    + intros [(w & Hw & Hid & He)|[Hi Hm]].
      * left. exists w. split; [by right | done].
      * destruct (decide (id v = i)) as [<-|Hne].
        -- rewrite lookup_insert_eq in Hm. left. exists v.
           split; [left | split; congruence].
        -- rewrite lookup_insert_ne in Hm by done. right.
           split; [|exact Hm]. intros [?|?]%elem_of_cons; congruence.
    + intros [(w & [->|Hw]%elem_of_cons & Hid & He)|[Hi Hm]].
      * right. subst i. split; [exact Hfresh|]. rewrite lookup_insert_eq. congruence.
      * left. by exists w.
      * apply not_elem_of_cons in Hi as [Hne Hi]. right.
        split; [exact Hi|]. by rewrite lookup_insert_ne.
Qed.

Lemma selected_elem (filters : list Filter) rows v :
  v ∈ List.filter (λ v, forallb (λ f, passes f v) filters) rows
  ↔ v ∈ rows ∧ ∀ f, f ∈ filters → passes f v = true.
Proof.
  rewrite !list_elem_of_In, filter_In, forallb_forall.
  split; intros [Hv Hf]; (split; [exact Hv|]); intros f Hin;
    apply Hf; by apply list_elem_of_In.
Qed.

Lemma selected_NoDup (test : Vote → bool) rows :
  NoDup (id <$> rows) → NoDup (id <$> List.filter test rows).
Proof.
  induction rows as [|v rows IH]; [done|].
  rewrite fmap_cons. intros [Hfresh Hnd]%NoDup_cons. cbn [List.filter].
  destruct (test v); [|by apply IH].
  rewrite fmap_cons. apply NoDup_cons. split; [|by apply IH].
  intros (w & Hid & Hw)%list_elem_of_fmap. apply Hfresh.
  apply list_elem_of_fmap. exists w. split; [exact Hid|].
  apply list_elem_of_In, filter_In in Hw as [Hw _]. by apply list_elem_of_In.
Qed.

Lemma request_filters_pass (from_id to_id editor_ord : option Z) (v : Vote) :
  (∀ f, f ∈ request_filters from_id to_id editor_ord → passes f v = true) ↔
    (∀ n, from_id = Some n → n ≤ id v) ∧
    (∀ n, to_id = Some n → id v ≤ n) ∧
    (∀ n e, editor_ord = Some n → value e = n → editor v = e).
Proof.
  unfold request_filters.
  assert (Hall : ∀ l : list Filter,
            (∀ f, f ∈ l → passes f v = true) ↔ Forall (λ f, passes f v = true) l).
  { intros l. by rewrite Forall_forall. }
  rewrite Hall, !Forall_app.
  assert (Hfrom : (∀ n, from_id = Some n → n ≤ id v) ↔
            Forall (λ f, passes f v = true)
              match from_id with Some n => [id_ge n] | None => [] end).
  { destruct from_id as [a|].
    - rewrite Forall_singleton. cbn [passes]. rewrite Z.leb_le. split.
      + intros H. by apply H.
      + by intros H n [= <-].
    - split; [intros _; constructor | done]. }
  assert (Hto : (∀ n, to_id = Some n → id v ≤ n) ↔
            Forall (λ f, passes f v = true)
              match to_id with Some n => [id_le n] | None => [] end).
  { destruct to_id as [b|].
    - rewrite Forall_singleton. cbn [passes]. rewrite Z.leb_le. split.
      + intros H. by apply H.
      + by intros H n [= <-].
    - split; [intros _; constructor | done]. }
  assert (Hed : (∀ n e, editor_ord = Some n → value e = n → editor v = e) ↔
            Forall (λ f, passes f v = true)
              match editor_ord with
              | Some n => match Editor_call n with
                          | Return e => [editor_eq e]
                          | Raise _ => []
                          end
              | None => []
              end).
  { destruct editor_ord as [c|]; [|split; [intros _; constructor | done]].
    destruct (Editor_call c) as [e|ex] eqn:Hcall.
    - apply Editor_call_Return in Hcall. rewrite Forall_singleton. cbn [passes].
      rewrite bool_decide_eq_true. split.
      + intros H. by apply (H c).
      + intros -> n e' [= <-] He'. destruct e, e'; cbn in *; congruence.
    - split; [intros _; constructor|].
      intros _ n e [= <-] He%Editor_call_Return. congruence. }
  by rewrite Hfrom, Hto, Hed.
Qed.

Lemma bind_request_filters (from_id to_id editor_ord : option Z) :
  bound_fits from_id → bound_fits to_id →
  bind_parameters (request_filters from_id to_id editor_ord) = Return ().
Proof.
  intros Hfrom Hto. unfold request_filters.
  assert (Hfit : ∀ n, - 2 ^ 63 ≤ n ≤ max_rowid →
            (- 2 ^ 63 <=? n) && (n <=? max_rowid) = true).
  { intros n [H1 H2]. apply andb_true_iff. split; by apply Z.leb_le. }
  destruct from_id as [a|], to_id as [b|], editor_ord as [c|];
    try destruct (Editor_call c); cbn;
    rewrite ?(Hfit a) by (by apply Hfrom);
    rewrite ?(Hfit b) by (by apply Hto); reflexivity.
Qed.

Lemma bind_request_filters_overflow (from_id to_id editor_ord : option Z) (n : Z) :
  from_id = Some n ∨ to_id = Some n →
  ¬ (- 2 ^ 63 ≤ n ≤ max_rowid) →
  bind_parameters (request_filters from_id to_id editor_ord) = Raise OverflowError.
Proof.
  intros Hn Hout. unfold request_filters.
  assert (Hbad : (- 2 ^ 63 <=? n) && (n <=? max_rowid) = false).
  { apply andb_false_iff.
    destruct (Z.leb_spec (- 2 ^ 63) n), (Z.leb_spec n max_rowid); auto. lia. }
  destruct Hn as [-> | ->].
  - cbn. by rewrite Hbad.
  - destruct from_id as [a|]; cbn; [|by rewrite Hbad].
    destruct ((- 2 ^ 63 <=? a) && (a <=? max_rowid)); cbn; [by rewrite Hbad | done].
Qed.

Section TimestampFacts.
Context {float : Type} (timestamp : datetime → float).

Lemma stats_json_eq (votes : list Vote) :
  ∃ latest first,
    stats_json timestamp votes =
      Return {| stats_total := Z.of_nat (length votes);
                stats_votes := counts_map (count_editor vim votes)
                                          (count_editor emacs votes);
                stats_latest := timestamp <$> latest;
                stats_first := timestamp <$> first |} ∧
    match votes with
    | [] => latest = None ∧ first = None
    | _ => ∃ tmax tmin,
        latest = Some tmax ∧ first = Some tmin ∧
        tmax ∈ voted <$> votes ∧ tmin ∈ voted <$> votes ∧
        ∀ v, v ∈ votes → tmin ≤ voted v ≤ tmax
    end.
Proof.
  unfold stats_json. rewrite zero_counts_eq, count_loop_counts. cbn [rbind].
  destruct votes as [|v votes].
  - exists None, None. split; [reflexivity | done].
  - rewrite decide_True by done. cbn [py_max py_min rbind].
    destruct (max_from_spec voted votes v) as [Hmax_in Hmax].
    destruct (min_from_spec voted votes v) as [Hmin_in Hmin].
    eexists (Some _), (Some _). split; [reflexivity|].
    eexists _, _. split; [reflexivity|]. split; [reflexivity|].
    split; [by apply list_elem_of_fmap_2|].
    split; [by apply list_elem_of_fmap_2|].
    intros x Hx. split; [by apply Hmin | by apply Hmax].
Qed.

(** C2. [stats_json] always answers; its total is the number of stored
    votes, its count map has exactly the values of the enumeration as keys,
    each mapped to that editor's number of votes, and its first and latest
    entries are the timestamps of the least and greatest [voted] among the
    votes, or absent when there is no vote. *)
Theorem stats_json_spec (votes : list Vote) :
  ∃ s, stats_json timestamp votes = Return s ∧
    stats_total s = Z.of_nat (length votes) ∧
    dom (stats_votes s) = list_to_set (value <$> Editor_all) ∧
    (∀ e, stats_votes s !! value e = Some (count_editor e votes)) ∧
    match votes with
    | [] => stats_latest s = None ∧ stats_first s = None
    | _ => ∃ tmax tmin,
        stats_latest s = Some (timestamp tmax) ∧
        stats_first s = Some (timestamp tmin) ∧
        tmax ∈ voted <$> votes ∧ tmin ∈ voted <$> votes ∧
        ∀ v, v ∈ votes → tmin ≤ voted v ≤ tmax
    end.
Proof.
  destruct (stats_json_eq votes) as (latest & first & -> & Hext).
  eexists. split; [reflexivity|]. cbn [stats_total stats_votes stats_latest stats_first].
  split; [reflexivity|]. split; [|split].
  - unfold counts_map. rewrite !dom_insert_L, dom_empty_L. cbn. set_solver.
  - intros []; unfold counts_map; cbn [value].
    + by rewrite lookup_insert_ne, lookup_insert_eq.
    + by rewrite lookup_insert_eq.
  - destruct votes as [|v votes].
    + destruct Hext as [-> ->]. done.
    + destruct Hext as (tmax & tmin & -> & -> & Hrest). by exists tmax, tmin.
Qed.

(** C7. The counts that [stats_json] returns add up to the total it
    returns. *)
Theorem stats_json_sum (votes : list Vote) :
  ∃ s, stats_json timestamp votes = Return s ∧
    sum_values (stats_votes s) = stats_total s.
Proof.
  destruct (stats_json_eq votes) as (latest & first & -> & _).
  eexists. split; [reflexivity|]. cbn [stats_total stats_votes].
  rewrite sum_values_counts_map. apply count_editor_total.
Qed.

Lemma votes_json_eq (rows : list Vote) (from to editor_arg : option string) :
  votes_json timestamp rows from to editor_arg =
    rbind (query_filter (request_filters (args_get_int from) (args_get_int to)
                           (args_get_int editor_arg)) rows)
          (λ selected, Return (listing_of timestamp selected)).
Proof.
  unfold votes_json, request_filters. cbv zeta.
  destruct (args_get_int from), (args_get_int to), (args_get_int editor_arg) as [c|];
    try destruct (Editor_call c); reflexivity.
Qed.

(** With bounds that SQLite takes, the view returns the listing of the
    rows that pass the filters. *)
Lemma votes_json_returns (rows : list Vote) (from to editor_arg : option string) :
  bound_fits (args_get_int from) → bound_fits (args_get_int to) →
  votes_json timestamp rows from to editor_arg =
    Return (listing_of timestamp
              (List.filter
                 (λ v, forallb (λ f, passes f v)
                         (request_filters (args_get_int from) (args_get_int to)
                            (args_get_int editor_arg)))
                 rows)).
Proof.
  intros Hfrom Hto. rewrite votes_json_eq. unfold query_filter.
  by rewrite bind_request_filters.
Qed.

(** A bound that SQLite does not take fails the request. *)
Lemma votes_json_overflow (rows : list Vote) (from to editor_arg : option string) (n : Z) :
  args_get_int from = Some n ∨ args_get_int to = Some n →
  ¬ (- 2 ^ 63 ≤ n ≤ max_rowid) →
  votes_json timestamp rows from to editor_arg = Raise OverflowError.
Proof.
  intros Hn Hout. rewrite votes_json_eq. unfold query_filter.
  by rewrite (bind_request_filters_overflow _ _ _ n).
Qed.

Lemma listing_lookup (rows : list Vote) (from_id to_id editor_ord : option Z) i entry :
  NoDup (id <$> rows) →
  (listing_of timestamp
     (List.filter
        (λ v, forallb (λ f, passes f v) (request_filters from_id to_id editor_ord))
        rows) !! i = Some entry ↔
   ∃ v, v ∈ rows ∧ id v = i ∧
     entry = {| json_editor := value (editor v);
                json_voted := timestamp (voted v) |} ∧
     (∀ n, from_id = Some n → n ≤ id v) ∧
     (∀ n, to_id = Some n → id v ≤ n) ∧
     (∀ n e, editor_ord = Some n → value e = n → editor v = e)).
Proof.
  intros Hnd. unfold listing_of.
  rewrite foldl_insert_lookup by by apply selected_NoDup.
  rewrite lookup_empty. split.
  - intros [(v & Hv & Hid & He)|[_ ?]]; [|done].
    apply selected_elem in Hv as [Hv Hpass].
    apply request_filters_pass in Hpass. by exists v.
  - intros (v & Hv & Hid & He & Hpass). left. exists v.
    split; [|done]. apply selected_elem. split; [exact Hv|].
    by apply request_filters_pass.
Qed.

(** C6, amended. Over rows with distinct ids and with every [from] or
    [to] that reads as an integer inside the signed 64-bit range,
    [votes_json] returns the map of exactly the ids of the rows that pass
    every filter in force to the row's editor ordinal and timestamp, a
    filter being in force when its parameter reads as an integer (and, for
    the editor, as the ordinal of a member); so [editor=1] lists only vim
    votes and [from=5&to=10] only ids from 5 to 10. *)
Theorem votes_json_filters (rows : list Vote) (from to editor_arg : option string) :
  NoDup (id <$> rows) →
  (∀ n, args_get_int from = Some n → - 2 ^ 63 ≤ n ≤ max_rowid) →
  (∀ n, args_get_int to = Some n → - 2 ^ 63 ≤ n ≤ max_rowid) →
  ∃ listing,
    votes_json timestamp rows from to editor_arg = Return listing ∧
    (∀ i entry,
       listing !! i = Some entry ↔
       ∃ v, v ∈ rows ∧ id v = i ∧
         entry = {| json_editor := value (editor v);
                    json_voted := timestamp (voted v) |} ∧
         (∀ n, args_get_int from = Some n → n ≤ id v) ∧
         (∀ n, args_get_int to = Some n → id v ≤ n) ∧
         (∀ n e, args_get_int editor_arg = Some n → value e = n → editor v = e)) ∧
    (editor_arg = Some "1"%string →
     ∀ i entry, listing !! i = Some entry →
       json_editor entry = value vim ∧ ∃ v, v ∈ rows ∧ id v = i ∧ editor v = vim) ∧
    (from = Some "5"%string → to = Some "10"%string →
     ∀ i entry, listing !! i = Some entry → 5 ≤ i ≤ 10).
Proof.
  intros Hnd Hfrom Hto. eexists. split; [by apply votes_json_returns|].
  pose proof (λ i entry, listing_lookup rows (args_get_int from) (args_get_int to)
                           (args_get_int editor_arg) i entry Hnd) as Hmain.
  split; [exact Hmain|]. split.
  - intros -> i entry (v & Hv & Hid & -> & _ & _ & He)%Hmain.
    assert (editor v = vim) as Hvim by (by apply (He 1)).
    cbn [json_editor]. rewrite Hvim. split; [reflexivity|]. by exists v.
  - intros -> -> i entry (v & Hv & <- & _ & Hf & Ht & _)%Hmain.
    split; [by apply Hf | by apply Ht].
Qed.


End TimestampFacts.

(** C6 as stated fails: every stored vote has an id at most [2 ^ 63], yet
    [to=9223372036854775808] is answered with an error and no listing. *)
Lemma votes_json_overflow_counterexample :
  args_get_int (Some "9223372036854775808"%string) = Some (2 ^ 63) ∧
  (∀ v, v ∈ sample_rows → id v ≤ 2 ^ 63) ∧
  votes_json (λ d, d) sample_rows None (Some "9223372036854775808"%string) None
    = Raise OverflowError ∧
  ¬ ∃ listing,
      votes_json (λ d, d) sample_rows None (Some "9223372036854775808"%string) None
        = Return listing.
Proof.
  split; [reflexivity|]. split.
  - intros v Hv. repeat (apply elem_of_cons in Hv as [->|Hv]; [cbn; lia|]).
    by apply elem_of_nil in Hv.
  - split; [reflexivity|]. intros [listing H]. discriminate H.
Qed.

(** The listing theorem at [from=5&to=10&editor=1] over four votes, with
    microseconds standing for the timestamp. *)
Lemma votes_json_filters_witness :
  NoDup (id <$> sample_rows) ∧
  votes_json (λ d, d) sample_rows (Some "5"%string) (Some "10"%string) (Some "1"%string)
    = Return {[ 7 := {| json_editor := 1; json_voted := 70 |} ]} ∧
  ∃ listing,
    votes_json (λ d, d) sample_rows (Some "5"%string) (Some "10"%string)
      (Some "1"%string) = Return listing ∧
    ∀ i entry, listing !! i = Some entry → 5 ≤ i ≤ 10.
Proof.
  assert (Hnd : NoDup (id <$> sample_rows))
    by (apply (bool_decide_unpack _); vm_compute; exact I).
  assert (Hfits : ∀ s m, args_get_int (Some s) = Some m →
            - 2 ^ 63 ≤ m ≤ max_rowid →
            ∀ n, args_get_int (Some s) = Some n → - 2 ^ 63 ≤ n ≤ max_rowid).
  { intros s m Hm Hr n Hn. congruence. }
  split; [exact Hnd|]. split; [reflexivity|].
  destruct (votes_json_filters (λ d, d) sample_rows (Some "5"%string)
              (Some "10"%string) (Some "1"%string) Hnd
              (Hfits "5"%string 5 eq_refl ltac:(by vm_compute))
              (Hfits "10"%string 10 eq_refl ltac:(by vm_compute)))
    as (listing & Heq & _ & _ & Hrange).
  exists listing. split; [exact Heq|]. exact (Hrange eq_refl eq_refl).
Defined.


(** ** The submission view *)

Lemma flush_rows storage rowid_draw utcnow objects inserted s :
  rows (flush storage rowid_draw utcnow objects inserted s).2 = rows s.
Proof.
  revert inserted s. induction objects as [|e rest IH]; intros inserted s; [done|].
  cbn [flush]. destruct storage; try done; by rewrite IH.
Qed.

Lemma flush_returns storage rowid_draw utcnow objects inserted s :
  storage ≠ FailsOnInsert →
  ∃ inserted' s', flush storage rowid_draw utcnow objects inserted s = (Return inserted', s') ∧
    rows s' = rows s ∧
    length (tx s') = (length (tx s) + length objects)%nat.
Proof.
  intros Hst. revert inserted s.
  induction objects as [|e rest IH]; intros inserted s.
  - exists inserted, s. cbn. split; [done|]. split; [done | lia].
  - cbn [flush].
    destruct (IH (inserted ++ [{| id := next_id rowid_draw (rows s ++ tx s); editor := e; voted := utcnow |}])
                 {| rows := rows s;
                    tx := tx s ++ [{| id := next_id rowid_draw (rows s ++ tx s); editor := e; voted := utcnow |}];
                    pending := rest |})
      as (ins' & s' & Heq & Hrows & Hlen).
    exists ins', s'. cbn [rows tx] in *. rewrite length_app in Hlen. cbn [length] in *.
    destruct storage; try done; (split; [exact Heq|]); (split; [exact Hrows | lia]).
Qed.

Lemma vote_bad_selection storage rowid_draw utcnow voe s :
  bad_selection voe →
  vote storage rowid_draw utcnow voe s = (Raise (HTTPError BadRequest), s).
Proof.
  intros [->|[->|[(v & ex & -> & Hint)|(v & n & -> & Hint & Hn)]]]; try reflexivity.
  - destruct v as [|c v]; [reflexivity|].
    unfold vote, bind, try_except, ret. cbn [abort]. by rewrite Hint.
  - destruct v as [|c v]; [reflexivity|].
    unfold vote, bind, try_except, ret. rewrite Hint. cbn [rbind].
    by rewrite (Editor_call_Raise n Hn).
Qed.

Lemma vote_selects storage rowid_draw utcnow voe e s :
  selects voe e →
  vote storage rowid_draw utcnow voe s =
    match store_vote storage rowid_draw utcnow e s with
    | (Return message, s') =>
        (Return {| body := redirect "/"; status := 302; slept := None;
                   flashed := [message] |}, s')
    | (Raise ex, s') => (Raise ex, s')
    end.
Proof.
  intros (c & v & n & -> & Hint & Hval). apply Editor_call_Return in Hval.
  unfold vote. unfold bind at 1. unfold ret at 1. unfold bind at 1.
  unfold try_except at 1. rewrite Hint. cbn [rbind]. by rewrite Hval.
Qed.

Lemma vote_append_fails storage rowid_draw utcnow voe e s :
  selects voe e →
  storage = FailsOnInsert ∨ storage = FailsOnCommit →
  vote storage rowid_draw utcnow voe s =
    (Raise (HTTPError InternalServerError),
     {| rows := rows s; tx := []; pending := [] |}).
Proof.
  intros Hsel Hst. rewrite (vote_selects _ _ _ _ _ _ Hsel).
  unfold store_vote, bind, try_except, session_add, session_commit, bind.
  destruct Hst as [-> | ->].
  - destruct (pending s ++ [e]) as [|e' rest] eqn:Hp;
      [by destruct (pending s)|].
    reflexivity.
  - cbn [pending rows tx].
    destruct (flush_returns FailsOnCommit rowid_draw utcnow (pending s ++ [e]) []
                {| rows := rows s; tx := tx s; pending := pending s ++ [e] |})
      as (ins' & s' & -> & Hrows & _); [done|].
    cbn. by rewrite Hrows.
Qed.

Lemma vote_stored rowid_draw utcnow voe e s :
  selects voe e →
  tx s = [] → pending s = [] →
  let row := {| id := next_id rowid_draw (rows s); editor := e; voted := utcnow |} in
  vote Healthy rowid_draw utcnow voe s =
    (Return {| body := redirect "/"; status := 302; slept := None;
               flashed := ["Your vote for `" +:+ name e +:+ "` with ID `" +:+
                           str_of_int (id row) +:+ "` has been recorded."] |},
     {| rows := rows s ++ [row]; tx := []; pending := [] |}).
Proof.
  intros Hsel Htx Hp row. rewrite (vote_selects _ _ _ _ _ _ Hsel).
  unfold store_vote, bind, try_except, session_add, session_commit, bind.
  cbn [pending rows tx]. rewrite Htx, Hp. cbn. rewrite app_nil_r. reflexivity.
Qed.

Lemma try_except_abort {A} (body : M A) s :
  (∃ a s', try_except body (let* _ := session_rollback in abort 500) s = (Return a, s') ∧
     body s = (Return a, s'))
  ∨ (∃ s', try_except body (let* _ := session_rollback in abort 500) s =
             (Raise (HTTPError InternalServerError),
              {| rows := rows s'; tx := []; pending := [] |}) ∧
     ∃ ex, body s = (Raise ex, s')).
Proof.
  unfold try_except. destruct (body s) as [[a|ex] s'].
  - left. by exists a, s'.
  - right. exists s'. split; [reflexivity | by exists ex].
Qed.

(** Whatever happens, the view answers with the redirect or aborts with
    400 or 500, and only the redirect adds to the table. *)
Lemma vote_outcomes storage rowid_draw utcnow voe s :
  (∃ response s', vote storage rowid_draw utcnow voe s = (Return response, s') ∧
     status response = 302)
  ∨ (vote storage rowid_draw utcnow voe s = (Raise (HTTPError BadRequest), s))
  ∨ (∃ s', vote storage rowid_draw utcnow voe s = (Raise (HTTPError InternalServerError), s')).
Proof.
  destruct voe as [[|c v]|]; [by right; left | | by right; left].
  destruct (py_int (String c v)) as [n|ex] eqn:Hint.
  2: { right; left. apply vote_bad_selection. right; right; left. by exists (String c v), ex. }
  destruct (Editor_call n) as [e|ex] eqn:Hcall.
  2: { right; left. apply vote_bad_selection. do 3 right. exists (String c v), n.
       split; [done|]. split; [done|]. intros e He%Editor_call_Return. congruence. }
  apply Editor_call_Return in Hcall.
  rewrite (vote_selects storage rowid_draw utcnow (Some (String c v)) e s)
    by by exists c, v, n.
  unfold store_vote.
  match goal with
  | |- context [try_except ?b _ s] =>
      destruct (try_except_abort b s) as [(msg & s' & -> & _)|(s' & -> & _)]
  end.
  - left. by eexists _, _.
  - right; right. by eexists.
Qed.

Lemma selection_cases voe : bad_selection voe ∨ ∃ e, selects voe e.
Proof.
  destruct voe as [[|c v]|]; [left; by right; left | | left; by left].
  destruct (py_int (String c v)) as [n|ex] eqn:Hint.
  2: { left. right; right; left. by exists (String c v), ex. }
  destruct (Editor_call n) as [e|ex] eqn:Hcall.
  - right. exists e. apply Editor_call_Return in Hcall. by exists c, v, n.
  - left. do 3 right. exists (String c v), n. split; [done|]. split; [done|].
    intros e He%Editor_call_Return. congruence.
Qed.

(** A commit that went through stays, even when reading the id back for
    the confirmation fails and the client is told 500. *)
Lemma vote_refresh_fails rowid_draw utcnow voe e s :
  selects voe e →
  tx s = [] → pending s = [] →
  vote FailsOnRefresh rowid_draw utcnow voe s =
    (Raise (HTTPError InternalServerError),
     {| rows := rows s ++ [{| id := next_id rowid_draw (rows s); editor := e; voted := utcnow |}];
        tx := []; pending := [] |}).
Proof.
  intros Hsel Htx Hp. rewrite (vote_selects _ _ _ _ _ _ Hsel).
  unfold store_vote, bind, try_except, session_add, session_commit, bind.
  cbn [pending rows tx]. rewrite Htx, Hp. cbn. rewrite app_nil_r. reflexivity.
Qed.

Lemma foldr_max_bounds (z : Z) (l : list Z) :
  foldr Z.max z l ∈ z :: l ∧ ∀ x, x ∈ z :: l → x ≤ foldr Z.max z l.
Proof.
  induction l as [|y l [Hin Hle]]; cbn [foldr].
  - split; [left|]. intros x ->%list_elem_of_singleton. lia.
  - split.
    + destruct (Z.max_spec y (foldr Z.max z l)) as [[_ ->]|[_ ->]].
      * apply elem_of_cons in Hin as [->|Hin]; [left | by do 2 right].
      * right; left.
    + intros x [->|[->|Hx]%elem_of_cons]%elem_of_cons.
      * specialize (Hle z ltac:(left)). lia.
      * lia.
      * specialize (Hle x ltac:(by right)). lia.
Qed.

(** Below the largest possible key the new key is greater than every key
    in the table. *)
Lemma next_id_above rowid_draw table v :
  (∀ w, w ∈ table → id w < max_rowid) →
  v ∈ table → id v < next_id rowid_draw table.
Proof.
  intros Hroom Hv. destruct table as [|w table]; [by apply elem_of_nil in Hv|].
  cbn [next_id]. destruct (foldr_max_bounds (id w) (id <$> table)) as [Hin Hle].
  rewrite <- fmap_cons in Hin, Hle.
  apply list_elem_of_fmap in Hin as (u & Hu & Hin). apply Hroom in Hin.
  rewrite (proj2 (Z.eqb_neq _ _)) by lia.
  specialize (Hle (id v) ltac:(by apply list_elem_of_fmap_2)). lia.
Qed.

(** Below the largest possible key the new key is 1 in an empty table
    and else one more than a key of the table. *)
Lemma next_id_cases rowid_draw table :
  (∀ w, w ∈ table → id w < max_rowid) →
  (table = [] ∧ next_id rowid_draw table = 1)
  ∨ ∃ u, u ∈ table ∧ next_id rowid_draw table = id u + 1.
Proof.
  intros Hroom. destruct table as [|w table]; [by left|]. right.
  cbn [next_id]. destruct (foldr_max_bounds (id w) (id <$> table)) as [Hin _].
  rewrite <- fmap_cons in Hin. apply list_elem_of_fmap in Hin as (u & Hu & Hin).
  pose proof (Hroom u Hin) as Hlt. rewrite <- Hu in Hlt.
  rewrite (proj2 (Z.eqb_neq _ _)) by lia. exists u. split; [exact Hin | lia].
Qed.

(** The new key is unused, as long as the key that SQLite draws is. *)
Lemma next_id_fresh rowid_draw table :
  rowid_draw table ∉ id <$> table →
  next_id rowid_draw table ∉ id <$> table.
Proof.
  intros Hdraw. destruct table as [|w table]; [apply not_elem_of_nil|].
  cbn [next_id]. destruct (Z.eqb_spec (foldr Z.max (id w) (id <$> table)) max_rowid);
    [exact Hdraw|].
  destruct (foldr_max_bounds (id w) (id <$> table)) as [_ Hle].
  rewrite <- fmap_cons in Hle. intros Hin. apply Hle in Hin. lia.
Qed.

(** The table is append-only: a run of the view leaves it as it was or adds
    one row with a fresh id. *)
Lemma vote_rows storage rowid_draw utcnow voe s :
  tx s = [] → pending s = [] →
  let s' := (vote storage rowid_draw utcnow voe s).2 in
  rows s' = rows s
  ∨ ∃ e, rows s' = rows s ++ [{| id := next_id rowid_draw (rows s); editor := e; voted := utcnow |}].
Proof.
  intros Htx Hp. cbv zeta.
  destruct (selection_cases voe) as [Hbad|[e Hsel]].
  - left. by rewrite (vote_bad_selection _ _ _ _ _ Hbad).
  - destruct storage.
    + right. exists e. by rewrite (vote_stored _ _ _ _ _ Hsel Htx Hp).
    + left. by rewrite (vote_append_fails _ _ _ _ _ _ Hsel (or_introl eq_refl)).
    + left. by rewrite (vote_append_fails _ _ _ _ _ _ Hsel (or_intror eq_refl)).
    + right. exists e. by rewrite (vote_refresh_fails _ _ _ _ _ Hsel Htx Hp).
Qed.

(** ** The endpoint *)

Lemma post_root_admitted req app events' :
  acquire_entry (get_remote_address req) 1 day (time req) (events app) = (true, events') →
  post_root req app =
    (match (vote (storage req) (rowid_draw req) (utcnow req) (form_voe req) (db app)).1 with
     | Return response => response
     | Raise (HTTPError e) => error_handler (random req) e
     | Raise _ => error_handler (random req) InternalServerError
     end,
     {| db := (session_rollback
                 (vote (storage req) (rowid_draw req) (utcnow req) (form_voe req) (db app)).2).2;
        events := events' |}).
Proof.
  intros Hacq. unfold post_root. rewrite Hacq.
  by destruct (vote (storage req) (rowid_draw req) (utcnow req) (form_voe req) (db app)).
Qed.

Lemma post_root_limited req app events' :
  acquire_entry (get_remote_address req) 1 day (time req) (events app) = (false, events') →
  post_root req app = (error_handler (random req) RateLimitExceeded, app).
Proof. intros Hacq. unfold post_root. by rewrite Hacq. Qed.

Lemma post_root_rows_bad_selection req app :
  bad_selection (form_voe req) →
  rows (db (post_root req app).2) = rows (db app).
Proof.
  intros Hbad.
  destruct (acquire_entry (get_remote_address req) 1 day (time req) (events app))
    as [[] events'] eqn:Hacq.
  - rewrite (post_root_admitted _ _ _ Hacq).
    by rewrite (vote_bad_selection _ _ _ _ _ Hbad).
  - by rewrite (post_root_limited _ _ _ Hacq).
Qed.

(** Every submission leaves the session closed and the table as it was
    or longer by one row. *)
Lemma post_root_step req app :
  tx (db app) = [] → pending (db app) = [] →
  (tx (db (post_root req app).2) = [] ∧ pending (db (post_root req app).2) = []) ∧
  (rows (db (post_root req app).2) = rows (db app)
   ∨ ∃ e, rows (db (post_root req app).2) =
            rows (db app) ++ [{| id := next_id (rowid_draw req) (rows (db app));
                                 editor := e; voted := utcnow req |}]).
Proof.
  intros Htx Hp.
  destruct (acquire_entry (get_remote_address req) 1 day (time req) (events app))
    as [[] events'] eqn:Hacq.
  - rewrite (post_root_admitted _ _ _ Hacq). cbn [snd db session_rollback rows tx pending].
    split; [done|].
    exact (vote_rows (storage req) (rowid_draw req) (utcnow req) (form_voe req)
             (db app) Htx Hp).
  - rewrite (post_root_limited _ _ _ Hacq). split; [done | by left].
Qed.

(** Every submission keeps the store well formed, the key that SQLite
    draws being unused. *)
Lemma post_root_store_wf req app :
  store_wf app →
  rowid_draw req (rows (db app)) ∉ id <$> rows (db app) →
  store_wf (post_root req app).2.
Proof.
  intros (Htx & Hp & Hnd) Hdraw.
  destruct (post_root_step req app Htx Hp) as [[Htx' Hp'] Hrows].
  split; [exact Htx'|]. split; [exact Hp'|].
  destruct Hrows as [-> | [e ->]]; [exact Hnd|].
  rewrite fmap_app. apply NoDup_app. split; [exact Hnd|]. split.
  - intros x Hx [->|[]%elem_of_nil]%elem_of_cons.
    by apply (next_id_fresh (rowid_draw req)) in Hx.
  - apply NoDup_singleton.
Qed.

Lemma run_store_wf reqs app :
  Forall (λ req, ∀ table, rowid_draw req table ∉ id <$> table) reqs →
  store_wf app → store_wf (run reqs app).2.
Proof.
  intros Hdraws. revert app.
  induction Hdraws as [|req reqs Hreq _ IH]; intros app Hwf; [done|].
  cbn [run]. pose proof (post_root_store_wf req app Hwf (Hreq _)) as Hwf'.
  destruct (post_root req app) as [response app']. cbn [snd] in Hwf'.
  specialize (IH app' Hwf'). by destruct (run reqs app').
Qed.

(** C3. A submission whose selection is missing, is not a number, or is a
    number outside the enumeration makes the view abort with 400 and leaves
    the session as it was; through the endpoint the table of votes is
    unchanged, and the client that the limiter lets through receives the
    400 error page. *)
Theorem vote_rejects_bad_selection (req : Request) (app : App) :
  bad_selection (form_voe req) →
  vote (storage req) (rowid_draw req) (utcnow req) (form_voe req) (db app)
    = (Raise (HTTPError BadRequest), db app) ∧
  code BadRequest = Some 400 ∧
  rows (db (post_root req app).2) = rows (db app) ∧
  (∀ events',
     acquire_entry (get_remote_address req) 1 day (time req) (events app)
       = (true, events') →
     (post_root req app).1 = error_handler (random req) BadRequest ∧
     status (post_root req app).1 = 400).
Proof.
  intros Hbad. split; [by apply vote_bad_selection|]. split; [reflexivity|].
  split; [by apply post_root_rows_bad_selection|].
  intros events' Hacq. rewrite (post_root_admitted _ _ _ Hacq).
  by rewrite (vote_bad_selection _ _ _ _ _ Hbad).
Qed.

(** The theorem at [voe=99], sent by a client that has not voted. *)
Lemma vote_rejects_bad_selection_witness :
  let req := {| remote_addr := Some "203.0.113.7"%string; form_voe := Some "99"%string;
                time := 1000; utcnow := 1000000000; storage := Healthy;
                random := 1 # 2;
       rowid_draw := λ _, 1 |} in
  let app := {| db := {| rows := [ {| id := 1; editor := emacs; voted := 5 |} ];
                         tx := []; pending := [] |};
                events := ∅ |} in
  bad_selection (form_voe req) ∧
  status (post_root req app).1 = 400 ∧
  rows (db (post_root req app).2) = rows (db app).
Proof.
  intros req app.
  assert (Hbad : bad_selection (form_voe req)).
  { do 3 right. exists "99"%string, 99. split; [reflexivity|].
    split; [reflexivity|]. intros []; discriminate. }
  destruct (vote_rejects_bad_selection req app Hbad) as (_ & _ & Hrows & Hadm).
  split; [exact Hbad|]. split; [|exact Hrows].
  exact (proj2 (Hadm _ eq_refl)).
Defined.

(** C4. When the insert or the commit of a valid submission fails, the view
    aborts with 500 and leaves the table as it was, with nothing in the
    transaction and nothing pending: a failed commit had left the inserted
    row in the transaction, and the rollback removes it.  The client that
    the limiter lets through receives the 500 error page. *)
Theorem vote_storage_failure (req : Request) (app : App) (e : Editor) :
  selects (form_voe req) e →
  storage req = FailsOnInsert ∨ storage req = FailsOnCommit →
  vote (storage req) (rowid_draw req) (utcnow req) (form_voe req) (db app)
    = (Raise (HTTPError InternalServerError),
       {| rows := rows (db app); tx := []; pending := [] |}) ∧
  code InternalServerError = Some 500 ∧
  (storage req = FailsOnCommit →
   ∃ s', (let* _ := session_add e in session_commit (storage req) (rowid_draw req) (utcnow req)) (db app)
           = (Raise StorageError, s') ∧ tx s' ≠ []) ∧
  (∀ events',
     acquire_entry (get_remote_address req) 1 day (time req) (events app)
       = (true, events') →
     post_root req app =
       (error_handler (random req) InternalServerError,
        {| db := {| rows := rows (db app); tx := []; pending := [] |};
           events := events' |}) ∧
     status (post_root req app).1 = 500).
Proof.
  intros Hsel Hst.
  pose proof (vote_append_fails _ (rowid_draw req) (utcnow req) _ _ (db app) Hsel Hst) as Hvote.
  split; [exact Hvote|]. split; [reflexivity|]. split.
  - intros Hc. rewrite Hc. unfold bind, session_add, session_commit, bind.
    cbn [pending rows tx].
    destruct (flush_returns FailsOnCommit (rowid_draw req) (utcnow req) (pending (db app) ++ [e]) []
                {| rows := rows (db app); tx := tx (db app);
                   pending := pending (db app) ++ [e] |})
      as (ins' & s' & -> & _ & Hlen); [done|].
    exists s'. split; [reflexivity|]. intros Hnil. rewrite Hnil in Hlen.
    rewrite length_app in Hlen. cbn in Hlen. lia.
  - intros events' Hacq. rewrite (post_root_admitted _ _ _ Hacq), Hvote.
    split; reflexivity.
Qed.

(** The theorem at a vote for vim whose commit fails. *)
Lemma vote_storage_failure_witness :
  let req := {| remote_addr := Some "203.0.113.7"%string; form_voe := Some "1"%string;
                time := 1000; utcnow := 1000000000; storage := FailsOnCommit;
                random := 1 # 2;
       rowid_draw := λ _, 1 |} in
  let app := {| db := {| rows := [ {| id := 1; editor := emacs; voted := 5 |} ];
                         tx := []; pending := [] |};
                events := ∅ |} in
  selects (form_voe req) vim ∧
  status (post_root req app).1 = 500 ∧
  db (post_root req app).2 = db app.
Proof.
  intros req app.
  assert (Hsel : selects (form_voe req) vim).
  { exists "1"%char, EmptyString, 1. repeat split; reflexivity. }
  destruct (vote_storage_failure req app vim Hsel (or_intror eq_refl))
    as (_ & _ & _ & Hadm).
  destruct (Hadm _ eq_refl) as [Heq Hst].
  split; [exact Hsel|]. split; [exact Hst|]. by rewrite Heq.
Defined.

(** C10. Every non-empty [voe] that [int] reads as the ordinal of a member
    is accepted as a vote for that member: the row is stored and the
    client is redirected.  That covers surrounding white space, an explicit
    plus sign and underscores between digits. *)
Theorem vote_accepts_int_forms (req : Request) (app : App) (e : Editor) :
  selects (form_voe req) e →
  storage req = Healthy →
  tx (db app) = [] → pending (db app) = [] →
  let row := {| id := next_id (rowid_draw req) (rows (db app)); editor := e; voted := utcnow req |} in
  let response :=
    {| body := redirect "/"; status := 302; slept := None;
       flashed := ["Your vote for `" +:+ name e +:+ "` with ID `" +:+
                   str_of_int (id row) +:+ "` has been recorded."] |} in
  let db' := {| rows := rows (db app) ++ [row]; tx := []; pending := [] |} in
  vote (storage req) (rowid_draw req) (utcnow req) (form_voe req) (db app) = (Return response, db') ∧
  (∀ events',
     acquire_entry (get_remote_address req) 1 day (time req) (events app)
       = (true, events') →
     post_root req app = (response, {| db := db'; events := events' |})) ∧
  selects (Some " +1 "%string) vim ∧
  selects (Some "+2"%string) emacs ∧
  selects (Some "0_1"%string) vim ∧
  selects (Some " 0_2 "%string) emacs.
Proof.
  intros Hsel Hst Htx Hp row response db'.
  assert (Hvote : vote (storage req) (rowid_draw req) (utcnow req) (form_voe req) (db app)
                  = (Return response, db')).
  { rewrite Hst. by apply vote_stored. }
  split; [exact Hvote|]. split.
  - intros events' Hacq. by rewrite (post_root_admitted _ _ _ Hacq), Hvote.
  - repeat split; eexists _, _, _; repeat split; reflexivity.
Qed.

(** The theorem at [voe] being a plus sign and a one between spaces. *)
Lemma vote_accepts_int_forms_witness :
  let req := {| remote_addr := Some "203.0.113.7"%string; form_voe := Some " +1 "%string;
                time := 1000; utcnow := 1000000000; storage := Healthy;
                random := 1 # 2;
       rowid_draw := λ _, 1 |} in
  let app := {| db := {| rows := [ {| id := 1; editor := emacs; voted := 5 |} ];
                         tx := []; pending := [] |};
                events := ∅ |} in
  selects (form_voe req) vim ∧
  status (post_root req app).1 = 302 ∧
  rows (db (post_root req app).2) =
    [ {| id := 1; editor := emacs; voted := 5 |};
      {| id := 2; editor := vim; voted := 1000000000 |} ].
Proof.
  intros req app.
  assert (Hsel : selects (form_voe req) vim).
  { exists " "%char, "+1 "%string, 1. repeat split; reflexivity. }
  destruct (vote_accepts_int_forms req app vim Hsel eq_refl eq_refl eq_refl)
    as (_ & Hadm & _).
  split; [exact Hsel|]. rewrite (Hadm _ eq_refl). split; reflexivity.
Defined.

(** ** The daily limit *)

Lemma acquire_entry_cases key now events :
  (acquire_entry key 1 day now events = (false, events) ∧
   ∃ h, last_hit events key = Some h ∧ (now - day <= h)%Q)
  ∨ acquire_entry key 1 day now events
      = (true, <[key := now :: default [] (events !! key)]> events).
Proof.
  unfold acquire_entry, last_hit. cbn [Nat.ltb Nat.leb Nat.sub].
  destruct (default [] (events !! key)) as [|h rest]; cbn; [by right|].
  destruct (Qle_bool (now - day) h) eqn:Hle; [|by right].
  left. split; [reflexivity|]. exists h. split; [reflexivity|].
  by apply Qle_bool_iff.
Qed.

Lemma acquire_entry_recent key now events h :
  last_hit events key = Some h → (now - day <= h)%Q →
  acquire_entry key 1 day now events = (false, events).
Proof.
  unfold acquire_entry, last_hit. cbn [Nat.ltb Nat.leb Nat.sub].
  destruct (default [] (events !! key)) as [|h' rest]; cbn; [done|].
  intros [= ->] Hle. apply Qle_bool_iff in Hle. by rewrite Hle.
Qed.

Lemma last_hit_insert events key key' now entries :
  last_hit (<[key := now :: entries]> events) key' =
    if decide (key = key') then Some now else last_hit events key'.
Proof.
  unfold last_hit. case_decide as Hk.
  - subst key'. by rewrite lookup_insert_eq.
  - by rewrite lookup_insert_ne.
Qed.

Lemma post_root_status req app :
  (status (post_root req app).1 = 429 ∧ (post_root req app).2 = app ∧
   post_root req app = (error_handler (random req) RateLimitExceeded, app) ∧
   ∃ h, last_hit (events app) (get_remote_address req) = Some h ∧
        (time req - day <= h)%Q)
  ∨ (status (post_root req app).1 ≠ 429 ∧
     events (post_root req app).2 =
       <[get_remote_address req :=
           time req :: default [] (events app !! get_remote_address req)]> (events app)).
Proof.
  destruct (acquire_entry_cases (get_remote_address req) (time req) (events app))
    as [[Hacq Hh]|Hacq].
  - left. rewrite (post_root_limited _ _ _ Hacq). done.
  - right. rewrite (post_root_admitted _ _ _ Hacq). cbn [fst snd events].
    split; [|reflexivity].
    destruct (vote_outcomes (storage req) (rowid_draw req) (utcnow req) (form_voe req) (db app))
      as [(response & s' & -> & Hst)|[-> |(s' & ->)]]; cbn [fst].
    + rewrite Hst. done.
    + done.
    + done.
Qed.

Lemma post_root_keeps_hit req app key t0 :
  (t0 <= time req)%Q →
  (∃ h, last_hit (events app) key = Some h ∧ (t0 <= h)%Q) →
  ∃ h, last_hit (events (post_root req app).2) key = Some h ∧ (t0 <= h)%Q.
Proof.
  intros Ht (h & Hh & Hle).
  destruct (post_root_status req app) as [(_ & -> & _)|[_ ->]]; [by exists h|].
  rewrite last_hit_insert. case_decide; [by exists (time req) | by exists h].
Qed.

Lemma run_keeps_hit reqs app key t0 :
  (∀ r, r ∈ reqs → (t0 <= time r)%Q) →
  (∃ h, last_hit (events app) key = Some h ∧ (t0 <= h)%Q) →
  ∃ h, last_hit (events (run reqs app).2) key = Some h ∧ (t0 <= h)%Q.
Proof.
  revert app. induction reqs as [|req reqs IH]; intros app Ht Hh; [done|].
  cbn [run].
  pose proof (post_root_keeps_hit req app key t0 (Ht req ltac:(left)) Hh) as Hh'.
  destruct (post_root req app) as [response app'] eqn:Hstep. cbn [snd] in Hh'.
  specialize (IH app' (λ r Hr, Ht r ltac:(by right)) Hh').
  by destruct (run reqs app') as [responses app''].
Qed.

(** Every submission that the limiter lets through uses up the day of its
    address, accepted or not. *)
Lemma one_attempt_per_day (app : App) (first : Request) (between : list Request)
    (second : Request) :
  get_remote_address first = get_remote_address second →
  (∀ r, r ∈ between ++ [second] → (time first <= time r)%Q) →
  (time second - time first <= day)%Q →
  status (post_root first app).1 ≠ 429 →
  let app' := (run between (post_root first app).2).2 in
  post_root second app' = (error_handler (random second) RateLimitExceeded, app').
Proof.
  intros Hkey Hclock Hwin Hacc app'.
  assert (Hhit : ∃ h, last_hit (events (post_root first app).2)
                        (get_remote_address second) = Some h ∧ (time first <= h)%Q).
  { destruct (post_root_status first app) as [(H429 & _)|[_ ->]]; [congruence|].
    rewrite last_hit_insert, Hkey, decide_True by done.
    exists (time first). split; [done | apply Qle_refl]. }
  apply (run_keeps_hit between) in Hhit as (h & Hh & Hle).
  2: { intros r Hr. apply Hclock, elem_of_app. by left. }
  fold app' in Hh.
  assert (Hrecent : (time second - day <= h)%Q) by lra.
  pose proof (acquire_entry_recent _ _ _ _ Hh Hrecent) as Hacq.
  by rewrite (post_root_limited _ _ _ Hacq).
Qed.

(** C5. After a submission of a client has been accepted, whatever other
    submissions arrive in between, a submission from the same address no
    more than a day later is answered 429 and changes nothing, whichever
    selection it carries; so it is not accepted.  The clock is assumed not
    to fall back behind the accepted submission. *)
Theorem one_vote_per_day (app : App) (first : Request) (between : list Request)
    (second : Request) :
  get_remote_address first = get_remote_address second →
  (∀ r, r ∈ between ++ [second] → (time first <= time r)%Q) →
  (time second - time first <= day)%Q →
  status (post_root first app).1 = 302 →
  let app' := (run between (post_root first app).2).2 in
  post_root second app' = (error_handler (random second) RateLimitExceeded, app') ∧
  status (post_root second app').1 = 429 ∧
  status (post_root second app').1 ≠ 302.
Proof.
  intros Hkey Hclock Hwin Hacc app'.
  assert (Hlim : post_root second app'
                 = (error_handler (random second) RateLimitExceeded, app')).
  { apply one_attempt_per_day; [done..|]. rewrite Hacc. done. }
  rewrite Hlim. done.
Qed.

(** The theorem at a vote for vim, a stranger's vote an hour later and a
    second try, now for emacs, after twenty-three hours. *)
Lemma one_vote_per_day_witness :
  let first := {| remote_addr := Some "203.0.113.7"%string; form_voe := Some "1"%string;
                  time := 1000; utcnow := 1000000000; storage := Healthy;
                  random := 1 # 2;
       rowid_draw := λ _, 1 |} in
  let other := {| remote_addr := Some "198.51.100.2"%string; form_voe := Some "2"%string;
                  time := 4600; utcnow := 4600000000; storage := Healthy;
                  random := 1 # 3;
       rowid_draw := λ _, 1 |} in
  let second := {| remote_addr := Some "203.0.113.7"%string; form_voe := Some "2"%string;
                   time := 83800; utcnow := 83800000000; storage := Healthy;
                   random := 1 # 4;
       rowid_draw := λ _, 1 |} in
  let app := {| db := {| rows := []; tx := []; pending := [] |}; events := ∅ |} in
  status (post_root first app).1 = 302 ∧
  status (post_root second (run [other] (post_root first app).2).2).1 = 429.
Proof.
  intros first other second app.
  assert (Hacc : status (post_root first app).1 = 302) by reflexivity.
  assert (Hclock : ∀ r, r ∈ [other] ++ [second] → (time first <= time r)%Q).
  { intros r [->|[->|[]%elem_of_nil]%elem_of_cons]%elem_of_cons; by vm_compute. }
  assert (Hwin : (time second - time first <= day)%Q) by by vm_compute.
  split; [exact Hacc|].
  exact (proj1 (proj2 (one_vote_per_day app first [other] second eq_refl Hclock Hwin Hacc))).
Defined.

(** ** The error handler *)

(** C9 as stated fails: the handler does not render the generic page for a
    429 error. *)
Lemma error_handler_429_not_generic :
  ¬ generic_error_page RateLimitExceeded (error_handler (1 # 2) RateLimitExceeded).
Proof. intros (summary & descr & H). discriminate H. Qed.

(** C9, amended. Every HTTP error other than 429 is rendered as the generic
    page with its code, its lower-cased name and its lower-cased
    description (["http error code"] and the code when it has none), sent
    without delay under the error's status; a 429 error is answered in
    plain text with its description, under status 429, after a sleep of
    fifteen times the random draw, which is at least 0 and below 15
    seconds. *)
Theorem error_handler_responses (random : Q) (e : HTTPException) :
  (code e ≠ Some 429 →
   generic_error_page e (error_handler random e) ∧
   error_handler random e =
     {| body := render_http_j2
                  (code e)
                  (lower (exc_name e))
                  (lower (str_or (description e)
                            ("http error code " +:+
                             match code e with
                             | Some c => str_of_int c
                             | None => "None"
                             end)));
        status := match code e with
                  | Some c => if c =? 0 then 200 else c
                  | None => 200
                  end;
        slept := None;
        flashed := [] |}) ∧
  (code e = Some 429 → (0 <= random)%Q → (random < 1)%Q →
   body (error_handler random e)
     = plain_text ("too many requests : " +:+ str_or (description e) "<limit>") ∧
   status (error_handler random e) = 429 ∧
   ∃ delay, slept (error_handler random e) = Some delay ∧
            (0 <= delay)%Q ∧ (delay < 15)%Q).
Proof.
  split.
  - intros Hcode. unfold error_handler, generic_error_page.
    rewrite decide_False by exact Hcode. split; [|reflexivity].
    by eexists _, _.
  - intros Hcode Hlo Hhi. unfold error_handler.
    rewrite decide_True by exact Hcode. cbn [body status slept].
    split; [reflexivity|]. split; [reflexivity|].
    exists (random * 15)%Q. split; [reflexivity|]. split; lra.
Qed.

(** The theorem at a 400 error and at the limiter's 429 with the draw 1/2. *)
Lemma error_handler_responses_witness :
  status (error_handler (1 # 2) BadRequest) = 400 ∧
  body (error_handler (1 # 2) BadRequest)
    = render_http_j2 (Some 400) "bad request"
        "the browser (or proxy) sent a request that this server could not understand." ∧
  body (error_handler (1 # 2) RateLimitExceeded)
    = plain_text "too many requests : 1 per 1 day" ∧
  ∃ delay, slept (error_handler (1 # 2) RateLimitExceeded) = Some delay ∧
           (0 <= delay)%Q ∧ (delay < 15)%Q.
Proof.
  destruct (error_handler_responses (1 # 2) BadRequest) as [Hpage _].
  destruct (Hpage ltac:(discriminate)) as [_ Heq].
  destruct (error_handler_responses (1 # 2) RateLimitExceeded) as [_ Hlimit].
  destruct (Hlimit eq_refl ltac:(by vm_compute) ltac:(by vm_compute))
    as (Hbody & _ & Hdelay).
  split; [by rewrite Heq|]. split; [by rewrite Heq|].
  split; [exact Hbody | exact Hdelay].
Defined.

(** ** The list of editors *)

(** X1. [editors_json] lists exactly the ordinals that [Editor] accepts,
    each with the name of its member, and the decimal text of each listed
    ordinal, sent as [voe], selects that member. *)
Theorem editors_json_ordinals :
  (∀ n s, editors_json !! n = Some s ↔
            ∃ e, Editor_call n = Return e ∧ name e = s) ∧
  (∀ e, editors_json !! value e = Some (name e) ∧
        selects (Some (str_of_int (value e))) e).
Proof.
  split.
  - intros n s. unfold editors_json, Editor_all. cbn [foldl value name]. split.
    + intros H. destruct (decide (n = 2)) as [->|H2].
      * rewrite lookup_insert_eq in H. exists emacs. by injection H.
      * rewrite lookup_insert_ne in H by done.
        destruct (decide (n = 1)) as [->|H1].
        -- rewrite lookup_insert_eq in H. exists vim. by injection H.
        -- by rewrite lookup_insert_ne in H by done.
    + intros (e & He%Editor_call_Return & <-). subst n.
      destruct e; cbn [value name].
      * by rewrite lookup_insert_ne, lookup_insert_eq.
      * by rewrite lookup_insert_eq.
  - intros []; (split; [reflexivity|]); eexists _, _, _; repeat split; reflexivity.
Qed.

(** ** The sitemap *)

Lemma string_app_cons (c : ascii) (s1 s2 : string) :
  String c s1 +:+ s2 = String c (s1 +:+ s2).
Proof. reflexivity. Qed.

Lemma string_app_nil_l (s : string) : EmptyString +:+ s = s.
Proof. reflexivity. Qed.

Lemma string_app_nil_r (s : string) : s +:+ EmptyString = s.
Proof.
  induction s as [|c s IH]; [done|]. by rewrite string_app_cons, IH.
Qed.

Lemma string_app_assoc (s1 s2 s3 : string) :
  (s1 +:+ s2) +:+ s3 = s1 +:+ (s2 +:+ s3).
Proof.
  induction s1 as [|c s1 IH]; [done|]. by rewrite !string_app_cons, IH.
Qed.

Lemma string_app_length (s1 s2 : string) :
  String.length (s1 +:+ s2) = (String.length s1 + String.length s2)%nat.
Proof.
  induction s1 as [|c s1 IH]; [done|]. rewrite string_app_cons. cbn. by rewrite IH.
Qed.

Lemma occurs_cons c a s : occurs c (String a s) ↔ c = a ∨ occurs c s.
Proof. unfold occurs. cbn. apply elem_of_cons. Qed.

Lemma match_name_occurs acc s r : match_name acc s = Some r → occurs ">" s.
Proof.
  revert acc. induction s as [|c s IH]; intros acc; cbn [match_name]; [done|].
  destruct (Ascii.eqb_spec c ">") as [->|Hc].
  - intros _. apply occurs_cons. by left.
  - rewrite andb_false_r. destruct (is_newline c); [done|].
    intros H%IH. apply occurs_cons. by right.
Qed.

Lemma match_converter_occurs nonempty s r :
  match_converter nonempty s = Some r → occurs ":" s ∧ occurs ">" s.
Proof.
  revert nonempty. induction s as [|c s IH]; intros nonempty; cbn [match_converter]; [done|].
  assert (Hlonger : (if is_newline c then None else match_converter true s) = Some r →
                    occurs ":" (String c s) ∧ occurs ">" (String c s)).
  { destruct (is_newline c); [done|]. intros [H1 H2]%IH.
    split; apply occurs_cons; by right. }
  destruct (nonempty && Ascii.eqb c ":") eqn:Hcolon; [|exact Hlonger].
  apply andb_true_iff in Hcolon as [_ ->%Ascii.eqb_eq].
  destruct (match_name EmptyString s) as [r'|] eqn:Hname; [|exact Hlonger].
  intros _. split; apply occurs_cons; [by left | right].
  by apply match_name_occurs in Hname.
Qed.

Lemma match_at_occurs s r :
  match_at s = Some r → occurs "<" s ∧ occurs ":" s ∧ occurs ">" s.
Proof.
  destruct s as [|c s]; [done|]. unfold match_at.
  destruct (Ascii.eqb_spec c "<") as [->|Hc].
  - intros [H1 H2]%match_converter_occurs.
    split; [apply occurs_cons; by left|]. split; apply occurs_cons; by right.
  - destruct c as [[] [] [] [] [] [] [] []]; done.
Qed.

Lemma sub_from_no_match s :
  (∀ c rest, s = String c rest ∨ (∃ pre, s = pre +:+ String c rest) →
             match_at (String c rest) = None) →
  sub_from 0 s = s.
Proof.
  induction s as [|c s IH]; intros Hno; [done|]. cbn [sub_from].
  rewrite (Hno c s) by by left. f_equal. apply IH.
  intros c' rest [->|[pre ->]]; apply Hno; right.
  - by exists (String c EmptyString).
  - by exists (String c pre).
Qed.

Lemma pat_sub_unchanged_aux (rule : string) :
  ¬ occurs "<" rule ∨ ¬ occurs ":" rule ∨ ¬ occurs ">" rule →
  pat_sub rule = rule.
Proof.
  intros Hmiss. apply sub_from_no_match. intros c rest Hsuffix.
  destruct (match_at (String c rest)) as [r|] eqn:Hm; [exfalso | done].
  apply match_at_occurs in Hm as (H1 & H2 & H3).
  assert (Hocc : ∀ a, occurs a (String c rest) → occurs a rule).
  { intros a Ha. destruct Hsuffix as [->|[pre ->]]; [done|].
    clear -Ha. induction pre as [|b pre IH]; [done|].
    apply occurs_cons. by right. }
  destruct Hmiss as [H|[H|H]]; apply H; by apply Hocc.
Qed.

(** X15. A rule in which [<], [:] or [>] does not occur is left as it is
    by the substitution. *)
Theorem pat_sub_unchanged (rule : string) :
  ¬ occurs "<" rule ∨ ¬ occurs ":" rule ∨ ¬ occurs ">" rule →
  pat_sub rule = rule.
Proof. apply pat_sub_unchanged_aux. Qed.

(** The theorem at a rule of the application. *)
Lemma pat_sub_unchanged_witness : pat_sub "/votes.json" = "/votes.json"%string.
Proof.
  apply pat_sub_unchanged. left. unfold occurs. cbn.
  intros H. repeat (apply elem_of_cons in H as [H|H]; [discriminate H|]).
  by apply elem_of_nil in H.
Defined.

Lemma match_name_group acc var post :
  acc ≠ EmptyString ∨ var ≠ EmptyString →
  ¬ occurs ">" var → ¬ occurs "010" var →
  match_name acc (var +:+ ">" +:+ post) = Some (acc +:+ var, post).
Proof.
  revert acc. induction var as [|c var IH]; intros acc Hne Hgt Hnl.
  - destruct Hne as [Hacc|]; [|done].
    rewrite string_app_nil_l, string_app_cons, string_app_nil_l. cbn [match_name].
    apply String.eqb_neq in Hacc. rewrite Hacc. cbn. by rewrite string_app_nil_r.
  - rewrite string_app_cons. cbn [match_name].
    assert (c ≠ ">"%char) as Hc by (intros ->; apply Hgt, occurs_cons; by left).
    assert (c ≠ "010"%char) as Hn by (intros ->; apply Hnl, occurs_cons; by left).
    apply Ascii.eqb_neq in Hc, Hn. unfold is_newline. rewrite Hc, Hn, andb_false_r.
    rewrite IH.
    + by rewrite string_app_assoc.
    + left. by destruct acc.
    + intros H. apply Hgt, occurs_cons. by right.
    + intros H. apply Hnl, occurs_cons. by right.
Qed.

Lemma match_converter_group nonempty conv var post :
  nonempty = true ∨ conv ≠ EmptyString →
  ¬ occurs ":" conv → ¬ occurs "010" conv →
  var ≠ EmptyString → ¬ occurs ">" var → ¬ occurs "010" var →
  match_converter nonempty (conv +:+ ":" +:+ var +:+ ">" +:+ post) = Some (var, post).
Proof.
  intros Hne Hcolon Hnl Hvar Hgt Hvnl. revert nonempty Hne.
  induction conv as [|c conv IH]; intros nonempty Hne.
  - destruct Hne as [->|]; [|done].
    rewrite string_app_nil_l, string_app_cons, string_app_nil_l.
    cbn [match_converter andb]. rewrite Ascii.eqb_refl.
    by rewrite match_name_group by auto.
  - rewrite string_app_cons. cbn [match_converter].
    assert (c ≠ ":"%char) as Hc by (intros ->; apply Hcolon, occurs_cons; by left).
    assert (c ≠ "010"%char) as Hn by (intros ->; apply Hnl, occurs_cons; by left).
    apply Ascii.eqb_neq in Hc, Hn. unfold is_newline. rewrite Hc, Hn, andb_false_r.
    apply IH; [| |by left].
    + intros H. apply Hcolon, occurs_cons. by right.
    + intros H. apply Hnl, occurs_cons. by right.
Qed.

Lemma match_at_other c s : c ≠ "<"%char → match_at (String c s) = None.
Proof. intros Hc. unfold match_at. by destruct c as [[] [] [] [] [] [] [] []]. Qed.

Lemma sub_from_prefix pre s :
  ¬ occurs "<" pre → sub_from 0 (pre +:+ s) = pre +:+ sub_from 0 s.
Proof.
  induction pre as [|c pre IH]; intros Hlt; [done|].
  rewrite !string_app_cons. cbn [sub_from]. rewrite match_at_other.
  - rewrite IH; [done|]. intros H. apply Hlt, occurs_cons. by right.
  - intros ->. apply Hlt, occurs_cons. by left.
Qed.

Lemma sub_from_skip x rest : sub_from (String.length x) (x +:+ rest) = sub_from 0 rest.
Proof. induction x as [|c x IH]; [done|]. rewrite string_app_cons. by cbn. Qed.

(** X16. A variable part [<converter:name>] of a rule is replaced by its
    name: when no [<] comes before it, the converter is not empty and has
    no colon, the name is not empty and has no [>], and neither has a
    newline, the substitution keeps what comes before, writes the name and
    goes on behind the [>]. *)
Theorem pat_sub_converter (pre conv var post : string) :
  ¬ occurs "<" pre →
  conv ≠ EmptyString → ¬ occurs ":" conv → ¬ occurs "010" conv →
  var ≠ EmptyString → ¬ occurs ">" var → ¬ occurs "010" var →
  pat_sub (pre +:+ "<" +:+ conv +:+ ":" +:+ var +:+ ">" +:+ post)
    = pre +:+ var +:+ pat_sub post.
Proof.
  intros Hpre Hconv Hcolon Hnl Hvar Hgt Hvnl. unfold pat_sub.
  rewrite sub_from_prefix by done. f_equal.
  change ("<" +:+ conv +:+ ":" +:+ var +:+ ">" +:+ post)
    with (String "<" (conv +:+ ":" +:+ var +:+ ">" +:+ post)).
  cbn [sub_from match_at].
  rewrite match_converter_group by auto. f_equal.
  replace (conv +:+ ":" +:+ var +:+ ">" +:+ post)
    with ((conv +:+ ":" +:+ var +:+ ">") +:+ post)
    by by rewrite !string_app_assoc.
  rewrite string_app_length.
  replace (String.length (conv +:+ ":" +:+ var +:+ ">") + String.length post
           - String.length post)%nat
    with (String.length (conv +:+ ":" +:+ var +:+ ">")) by lia.
  apply sub_from_skip.
Qed.

(** The theorem at the rule of the static files. *)
Lemma pat_sub_converter_witness :
  pat_sub "/static/<path:filename>" = "/static/filename"%string.
Proof.
  assert (Hno : ∀ c s,
                 forallb (λ a, negb (a =? c)%char) (list_ascii_of_string s) = true →
                 ¬ occurs c s).
  { intros c s Hall Hin. unfold occurs in Hin.
    apply list_elem_of_In in Hin. rewrite forallb_forall in Hall.
    specialize (Hall c Hin). by rewrite Ascii.eqb_refl in Hall. }
  exact (pat_sub_converter "/static/" "path" "filename" EmptyString
           (Hno "<"%char "/static/"%string eq_refl)
           ltac:(discriminate)
           (Hno ":"%char "path"%string eq_refl)
           (Hno "010"%char "path"%string eq_refl)
           ltac:(discriminate)
           (Hno ">"%char "filename"%string eq_refl)
           (Hno "010"%char "filename"%string eq_refl)).
Defined.

Lemma sitemap_foldl (rules : list string) (acc tail : string) :
  foldl (λ sitemap rule, sitemap +:+ surl (pat_sub rule)) acc rules +:+ tail
    = acc +:+ foldr (λ rule rest, surl (pat_sub rule) +:+ rest) tail rules.
Proof.
  revert acc. induction rules as [|rule rules IH]; intros acc; [done|].
  cbn [foldl foldr]. by rewrite IH, string_app_assoc.
Qed.

Lemma sitemap_plain_entries (rules : list string) (tail : string) :
  Forall (λ rule, ¬ occurs "<" rule) rules →
  foldr (λ rule rest, surl (pat_sub rule) +:+ rest) tail rules
    = foldr (λ rule rest,
               "<url><loc>https://vim-or-emacs.ari.lt" +:+ rule +:+
               "</loc><priority>1.0</priority></url>" +:+ rest)
            tail rules.
Proof.
  intros Hrules. induction Hrules as [|rule rules Hrule _ IH]; [done|].
  cbn [foldr]. rewrite IH, (pat_sub_unchanged_aux rule) by by left.
  unfold surl, PREFERRED_URL_SCHEME, DOMAIN. cbv zeta.
  by rewrite !string_app_assoc.
Qed.

(** X17. Flask registers the rule of the static files,
    [/static/<path:filename>], before any view.  When no rule registered
    after it has a variable part, the sitemap is the header, the [url] entry
    of [/static/filename], one [url] entry per further rule with the rule
    itself behind scheme and domain, in the order of registration and with
    repeated rules repeated, and the closing tag. *)
Theorem sitemap_xml_entries (rules : list string) :
  Forall (λ rule, ¬ occurs "<" rule) rules →
  sitemap_xml ("/static/<path:filename>"%string :: rules)
    = sitemap_header +:+
      "<url><loc>https://vim-or-emacs.ari.lt/static/filename</loc><priority>1.0</priority></url>" +:+
      foldr (λ rule rest,
               "<url><loc>https://vim-or-emacs.ari.lt" +:+ rule +:+
               "</loc><priority>1.0</priority></url>" +:+ rest)
            "</urlset>" rules.
Proof.
  intros Hrules. unfold sitemap_xml, sitemap. rewrite sitemap_foldl. f_equal.
  cbn [foldr]. rewrite (sitemap_plain_entries rules _ Hrules).
  assert (Hstatic : pat_sub "/static/<path:filename>" = "/static/filename"%string)
    by reflexivity.
  rewrite Hstatic. unfold surl, PREFERRED_URL_SCHEME, DOMAIN. cbv zeta.
  by rewrite !string_app_assoc.
Qed.

Lemma not_occurs_check (c : ascii) (s : string) :
  forallb (λ a, negb (a =? c)%char) (list_ascii_of_string s) = true → ¬ occurs c s.
Proof.
  intros Hall Hin. unfold occurs in Hin.
  apply list_elem_of_In in Hin. rewrite forallb_forall in Hall.
  specialize (Hall c Hin). by rewrite Ascii.eqb_refl in Hall.
Qed.

(** The theorem at the rules of the application when the loop runs: the
    static files and the views defined above the loop. *)
Lemma sitemap_xml_entries_witness :
  sitemap_xml ["/static/<path:filename>"; "/"; "/"; "/votes"; "/editors.json";
               "/votes.json"; "/stats.json"; "/robots.txt"]%string
    = sitemap_header +:+
      "<url><loc>https://vim-or-emacs.ari.lt/static/filename</loc><priority>1.0</priority></url>" +:+
      "<url><loc>https://vim-or-emacs.ari.lt/</loc><priority>1.0</priority></url>" +:+
      "<url><loc>https://vim-or-emacs.ari.lt/</loc><priority>1.0</priority></url>" +:+
      "<url><loc>https://vim-or-emacs.ari.lt/votes</loc><priority>1.0</priority></url>" +:+
      "<url><loc>https://vim-or-emacs.ari.lt/editors.json</loc><priority>1.0</priority></url>" +:+
      "<url><loc>https://vim-or-emacs.ari.lt/votes.json</loc><priority>1.0</priority></url>" +:+
      "<url><loc>https://vim-or-emacs.ari.lt/stats.json</loc><priority>1.0</priority></url>" +:+
      "<url><loc>https://vim-or-emacs.ari.lt/robots.txt</loc><priority>1.0</priority></url>" +:+
      "</urlset>".
Proof.
  apply (sitemap_xml_entries ["/"; "/"; "/votes"; "/editors.json"; "/votes.json";
                              "/stats.json"; "/robots.txt"]%string).
  repeat (constructor; [by apply (not_occurs_check "<"%char)|]). constructor.
Defined.

(** ** The winner among any number of groups *)

Lemma sorted_reverse_strongly {A} (key : A → Z) (l : list A) :
  StronglySorted (λ a b, key b ≤ key a) (sorted_reverse key l).
Proof.
  apply Sorted_StronglySorted; [|apply sorted_reverse_sorted].
  intros a b c Hab Hbc. lia.
Qed.

Lemma filter_count_below (c : Z) (l : list (Editor * Z)) :
  (∀ row, row ∈ l → row.2 < c) → filter (λ row, row.2 = c) l = [].
Proof.
  induction l as [|row l IH]; intros Hl; [done|].
  rewrite filter_cons, decide_False.
  - apply IH. intros r Hr. apply Hl. by right.
  - specialize (Hl row ltac:(left)). lia.
Qed.

(** X2. On any rows of counts [index] answers without an error; for no row
    it gives [(None, 0)], and otherwise the count it gives is the greatest
    count, with an editor exactly when a single row has that count: the
    editor of that row. *)
Theorem index_any_groups (editor_counts : list (Editor * Z)) :
  (editor_counts = [] ∧ index editor_counts = Return (None, 0))
  ∨ ∃ winner c,
      index editor_counts = Return (winner, c) ∧
      (∀ row, row ∈ editor_counts → row.2 ≤ c) ∧
      match winner with
      | Some e => filter (λ row, row.2 = c) editor_counts = [(e, c)]
      | None => (2 ≤ length (filter (λ row, row.2 = c) editor_counts))%nat
      end.
Proof.
  destruct editor_counts as [|row1 [|row2 rows]]; [by left | right..].
  - destruct row1 as [e c]. exists (Some e), c. split; [reflexivity|]. split.
    + intros row ->%list_elem_of_singleton. done.
    + rewrite filter_cons, filter_nil. by rewrite decide_True.
  - set (ec := row1 :: row2 :: rows).
    pose proof (sorted_reverse_perm snd ec) as Hperm.
    pose proof (sorted_reverse_strongly snd ec) as Hsorted.
    assert (Hindex : index ec =
              rbind (getitem (take 2 (sorted_reverse snd ec)) 0) (λ top,
              rbind (getitem (take 2 (sorted_reverse snd ec)) 1) (λ next,
                if next.2 <? top.2 then Return (Some top.1, top.2)
                else Return (None, top.2)))) by reflexivity.
    rewrite Hindex. clear Hindex.
    destruct (sorted_reverse snd ec) as [|top [|next rest]] eqn:Hs.
    { apply Permutation_length in Hperm. discriminate Hperm. }
    { apply Permutation_length in Hperm. discriminate Hperm. }
    apply StronglySorted_inv in Hsorted as [Htail Htop].
    apply StronglySorted_inv in Htail as [_ Hnext].
    rewrite Forall_forall in Htop, Hnext.
    assert (Hmax : ∀ row, row ∈ ec → row.2 ≤ top.2).
    { intros row Hrow. rewrite <- Hperm in Hrow.
      apply elem_of_cons in Hrow as [->|Hrow]; [lia|].
      apply Htop, Hrow. }
    cbn [take getitem lookup list_lookup rbind].
    destruct (Z.ltb_spec next.2 top.2) as [Hlt|Hge].
    + exists (Some top.1), top.2. split; [reflexivity|]. split; [exact Hmax|].
      apply Permutation_singleton_r. rewrite <- Hperm.
      rewrite filter_cons, decide_True by done.
      rewrite filter_count_below; [by destruct top|].
      intros row [->|Hrow]%elem_of_cons; [exact Hlt|].
      apply Hnext in Hrow. lia.
    + exists None, top.2. split; [reflexivity|]. split; [exact Hmax|].
      rewrite <- Hperm.
      assert (next.2 = top.2) as Heq.
      { specialize (Htop next ltac:(left)). lia. }
      rewrite !filter_cons, decide_True by done. rewrite decide_True by exact Heq.
      cbn [length]. lia.
Qed.

(** ** More on the listing *)

Section ListingFacts.
Context {float : Type} (timestamp : datetime → float).

Lemma bound_fits_None : bound_fits None.
Proof. intros n Hn. discriminate Hn. Qed.

Lemma votes_json_lookup (rows : list Vote) (from to editor_arg : option string)
    (listing : gmap Z VoteJson) i entry :
  NoDup (id <$> rows) →
  votes_json timestamp rows from to editor_arg = Return listing →
  (listing !! i = Some entry ↔
   ∃ v, v ∈ rows ∧ id v = i ∧
     entry = {| json_editor := value (editor v);
                json_voted := timestamp (voted v) |} ∧
     (∀ n, args_get_int from = Some n → n ≤ id v) ∧
     (∀ n, args_get_int to = Some n → id v ≤ n) ∧
     (∀ n e, args_get_int editor_arg = Some n → value e = n → editor v = e)).
Proof.
  intros Hnd. rewrite votes_json_eq. unfold query_filter.
  destruct (bind_parameters _) as [[]|ex]; cbn [rbind]; [|done].
  intros [= <-]. by apply listing_lookup.
Qed.

Lemma votes_json_all_returns (rows : list Vote) :
  ∃ listing, votes_json timestamp rows None None None = Return listing.
Proof.
  eexists. apply votes_json_returns; apply bound_fits_None.
Qed.

(** X3. Without parameters the listing has one entry per stored vote,
    under the vote's id, so it has as many entries as [stats_json]
    reports as total. *)
Theorem votes_json_all (rows : list Vote) :
  NoDup (id <$> rows) →
  ∃ listing,
    votes_json timestamp rows None None None = Return listing ∧
    dom listing = list_to_set (id <$> rows) ∧
    ∃ s, stats_json timestamp rows = Return s ∧
         Z.of_nat (size listing) = stats_total s.
Proof.
  intros Hnd. destruct (votes_json_all_returns rows) as [listing Heq].
  exists listing. split; [exact Heq|].
  assert (Hdom : dom listing = list_to_set (id <$> rows)).
  { apply set_eq. intros i. rewrite elem_of_dom, elem_of_list_to_set, list_elem_of_fmap.
    split.
    - intros [entry Hentry].
      apply (votes_json_lookup rows None None None listing i entry Hnd Heq) in Hentry
        as (v & Hv & Hid & _).
      by exists v.
    - intros (v & -> & Hv). eexists.
      apply (votes_json_lookup rows None None None listing _ _ Hnd Heq).
      exists v. by repeat split. }
  split; [exact Hdom|].
  destruct (stats_json_eq timestamp rows) as (latest & first & -> & _).
  eexists. split; [reflexivity|]. cbn [stats_total].
  rewrite <- size_dom, Hdom, size_list_to_set by exact Hnd.
  by rewrite length_fmap.
Qed.

(** X4. A [from] or [to] that [int] refuses counts as absent. *)
Theorem votes_json_bound_ignored (rows : list Vote) (from to editor_arg : option string)
    (s : string) (ex : exn) :
  py_int s = Raise ex →
  votes_json timestamp rows (Some s) to editor_arg
    = votes_json timestamp rows None to editor_arg ∧
  votes_json timestamp rows from (Some s) editor_arg
    = votes_json timestamp rows from None editor_arg.
Proof.
  intros Hint. unfold votes_json. cbn [args_get_int]. by rewrite Hint.
Qed.

(** X5. A [from] above the [to], both signed 64-bit integers, lists
    nothing: the answer is the empty object. *)
Theorem votes_json_empty_range (rows : list Vote) (from to editor_arg : option string)
    (a b : Z) :
  args_get_int from = Some a → args_get_int to = Some b →
  - 2 ^ 63 ≤ b → b < a → a ≤ max_rowid →
  votes_json timestamp rows from to editor_arg = Return ∅.
Proof.
  intros Hfrom Hto Hlo Hlt Hhi.
  rewrite votes_json_returns.
  2: { intros n Hn. rewrite Hfrom in Hn. injection Hn as <-. lia. }
  2: { intros n Hn. rewrite Hto in Hn. injection Hn as <-. lia. }
  f_equal.
  match goal with
  | |- listing_of _ ?selected = ∅ => assert (Hnone : selected = []); [|by rewrite Hnone]
  end.
  match goal with
  | |- ?selected = [] => destruct selected as [|v l] eqn:Hsel; [done|]
  end.
  assert (Hv : v ∈ v :: l) by left. rewrite <- Hsel in Hv.
  apply selected_elem in Hv as [_ Hpass].
  apply request_filters_pass in Hpass as (Hf & Ht & _).
  specialize (Hf a Hfrom). specialize (Ht b Hto). lia.
Qed.

(** X6. The view answers without parameters, and every entry of a
    filtered listing is an entry of that answer. *)
Theorem votes_json_subset (rows : list Vote) (from to editor_arg : option string) :
  NoDup (id <$> rows) →
  ∃ all,
    votes_json timestamp rows None None None = Return all ∧
    ∀ listing,
      votes_json timestamp rows from to editor_arg = Return listing →
      listing ⊆ all.
Proof.
  intros Hnd. destruct (votes_json_all_returns rows) as [all Hall].
  exists all. split; [exact Hall|]. intros listing Heq.
  apply map_subseteq_spec. intros i entry Hentry.
  apply (votes_json_lookup rows from to editor_arg listing i entry Hnd Heq) in Hentry
    as (v & Hv & Hid & He & _).
  apply (votes_json_lookup rows None None None all i entry Hnd Hall).
  exists v. by repeat split.
Qed.

Lemma count_editor_app e l1 l2 :
  count_editor e (l1 ++ l2) = count_editor e l1 + count_editor e l2.
Proof. unfold count_editor. rewrite filter_app, length_app. lia. Qed.

(** X7. An accepted submission shows in the aggregates: the total of
    [stats_json] and the count of the chosen editor go up by one, the
    other count stays, and the listing gains the entry of the new vote
    under its id, which, the largest possible key not being in the table,
    is 1 in an empty table and else one more than the largest id. *)
Theorem accepted_vote_in_aggregates (req : Request) (app : App) (e : Editor)
    (events' : gmap string (list Q)) :
  selects (form_voe req) e →
  storage req = Healthy →
  store_wf app →
  (∀ v, v ∈ rows (db app) → id v < max_rowid) →
  acquire_entry (get_remote_address req) 1 day (time req) (events app)
    = (true, events') →
  let rows' := rows (db (post_root req app).2) in
  let new_id := next_id (rowid_draw req) (rows (db app)) in
  ∃ s s' listing,
    stats_json timestamp (rows (db app)) = Return s ∧
    stats_json timestamp rows' = Return s' ∧
    stats_total s' = stats_total s + 1 ∧
    stats_votes s' !! value e = (λ c, c + 1) <$> stats_votes s !! value e ∧
    (∀ e', e' ≠ e → stats_votes s' !! value e' = stats_votes s !! value e') ∧
    votes_json timestamp rows' None None None = Return listing ∧
    listing !! new_id
      = Some {| json_editor := value e; json_voted := timestamp (utcnow req) |} ∧
    (∀ v, v ∈ rows (db app) → id v < new_id) ∧
    (rows (db app) = [] → new_id = 1) ∧
    (rows (db app) ≠ [] → ∃ v, v ∈ rows (db app) ∧ new_id = id v + 1).
Proof.
  intros Hsel Hst (Htx & Hp & Hnd) Hroom Hacq rows' new_id.
  assert (Hrows : rows' = rows (db app) ++
            [{| id := new_id; editor := e; voted := utcnow req |}]).
  { unfold rows'. rewrite (post_root_admitted _ _ _ Hacq), Hst.
    by rewrite (vote_stored _ _ _ _ _ Hsel Htx Hp). }
  assert (Habove : ∀ v, v ∈ rows (db app) → id v < new_id)
    by (intros v Hv; by apply next_id_above).
  assert (Hnd' : NoDup (id <$> rows')).
  { rewrite Hrows, fmap_app. apply NoDup_app. split; [exact Hnd|]. split.
    - intros x (v & -> & Hv)%list_elem_of_fmap [Heq|[]%elem_of_nil]%elem_of_cons.
      cbn in Heq. specialize (Habove v Hv). lia.
    - apply NoDup_singleton. }
  destruct (stats_json_eq timestamp (rows (db app))) as (l1 & f1 & -> & _).
  destruct (stats_json_eq timestamp rows') as (l2 & f2 & -> & _).
  destruct (votes_json_all_returns rows') as [listing Hlisting].
  eexists _, _, listing. split; [reflexivity|]. split; [reflexivity|].
  cbn [stats_total stats_votes]. rewrite Hrows.
  split; [rewrite length_app; cbn [length]; lia|]. split; [|split].
  - rewrite !count_editor_app, !count_editor_cons. cbn [editor]. unfold counts_map.
    destruct e; cbn [value].
    + rewrite !(lookup_insert_ne _ 2 1), !lookup_insert_eq by done.
      rewrite decide_True by done. cbn. f_equal. all: unfold count_editor; cbn; lia.
    + rewrite !lookup_insert_eq.
      rewrite decide_True by done. cbn. f_equal. all: unfold count_editor; cbn; lia.
  - intros e' Hne. rewrite !count_editor_app, !count_editor_cons. cbn [editor].
    unfold counts_map. destruct e, e'; try done; cbn [value].
    + rewrite !lookup_insert_eq.
      rewrite decide_False by done. f_equal. all: unfold count_editor; cbn; lia.
    + rewrite !(lookup_insert_ne _ 2 1), !lookup_insert_eq by done.
      rewrite decide_False by done. f_equal. all: unfold count_editor; cbn; lia.
  - rewrite <- Hrows. split; [exact Hlisting|]. split; [|split; [exact Habove|split]].
    + apply (votes_json_lookup rows' None None None listing _ _ Hnd' Hlisting).
      eexists. split; [rewrite Hrows; apply elem_of_app; right; left|].
      by repeat split.
    + intros Hempty. unfold new_id. by rewrite Hempty.
    + intros Hne. unfold new_id. destruct (rows (db app)) as [|w table] eqn:Htable; [done|].
      cbn [next_id].
      destruct (foldr_max_bounds (id w) (id <$> table)) as [Hin _].
      rewrite <- fmap_cons in Hin. apply list_elem_of_fmap in Hin as (u & Hu & Hin).
      pose proof (Hroom u Hin) as Hlt. rewrite <- Hu in Hlt.
      rewrite (proj2 (Z.eqb_neq _ _)) by lia. exists u. split; [exact Hin | lia].
Qed.

End ListingFacts.

Lemma sample_rows_NoDup : NoDup (id <$> sample_rows).
Proof. apply (bool_decide_unpack _). vm_compute. exact I. Qed.

(** The theorem at four stored votes. *)
Lemma votes_json_all_witness :
  NoDup (id <$> sample_rows) ∧
  ∃ listing,
    votes_json (λ d, d) sample_rows None None None = Return listing ∧
    dom listing = list_to_set (id <$> sample_rows).
Proof.
  split; [exact sample_rows_NoDup|].
  destruct (votes_json_all (λ d, d) sample_rows sample_rows_NoDup)
    as (listing & Heq & Hdom & _).
  by exists listing.
Defined.

(** The theorem at an empty [from], as the form of the vote browser sends. *)
Lemma votes_json_bound_ignored_witness :
  py_int EmptyString = Raise ValueError ∧
  votes_json (λ d, d) sample_rows (Some EmptyString) (Some "10"%string) None
    = votes_json (λ d, d) sample_rows None (Some "10"%string) None.
Proof.
  split; [reflexivity|].
  exact (proj1 (votes_json_bound_ignored (λ d, d) sample_rows None (Some "10"%string)
                  None EmptyString ValueError eq_refl)).
Defined.

(** The theorem at [from=10&to=5]. *)
Lemma votes_json_empty_range_witness :
  votes_json (λ d, d) sample_rows (Some "10"%string) (Some "5"%string) None = Return ∅.
Proof.
  apply (votes_json_empty_range (λ d, d) sample_rows _ _ _ 10 5);
    [reflexivity | reflexivity | by vm_compute | lia | by vm_compute].
Defined.

(** The theorem at [editor=2] over four stored votes. *)
Lemma votes_json_subset_witness :
  NoDup (id <$> sample_rows) ∧
  ∃ all,
    votes_json (λ d, d) sample_rows None None None = Return all ∧
    ∀ listing,
      votes_json (λ d, d) sample_rows None None (Some "2"%string) = Return listing →
      listing ⊆ all.
Proof.
  split; [exact sample_rows_NoDup|].
  exact (votes_json_subset (λ d, d) sample_rows None None (Some "2"%string)
           sample_rows_NoDup).
Defined.

(** The theorem at a first vote for emacs. *)
Lemma accepted_vote_in_aggregates_witness :
  let req := {| remote_addr := Some "203.0.113.7"%string; form_voe := Some "2"%string;
                time := 1000; utcnow := 1000000000; storage := Healthy;
                random := 1 # 2; rowid_draw := λ _, 1 |} in
  let app := {| db := {| rows := []; tx := []; pending := [] |}; events := ∅ |} in
  ∃ s', stats_json (λ d, d) (rows (db (post_root req app).2)) = Return s' ∧
        stats_total s' = 1 ∧ stats_votes s' !! 2 = Some 1.
Proof.
  intros req app.
  assert (Hsel : selects (form_voe req) emacs).
  { exists "2"%char, EmptyString, 2. repeat split; reflexivity. }
  assert (Hwf : store_wf app) by (repeat split; constructor).
  assert (Hroom : ∀ v, v ∈ rows (db app) → id v < max_rowid)
    by (intros v []%elem_of_nil).
  destruct (accepted_vote_in_aggregates (λ d, d) req app emacs _ Hsel eq_refl Hwf Hroom
              eq_refl)
    as (s & s' & listing & Hs & Hs' & Htot & Hcount & _).
  exists s'. split; [exact Hs'|].
  injection Hs as <-. split; [exact Htot | exact Hcount].
Defined.

(** ** More on the store *)

Lemma post_root_headroom req app n :
  tx (db app) = [] → pending (db app) = [] →
  Z.of_nat (S n) ≤ max_rowid →
  (∀ v, v ∈ rows (db app) → id v + Z.of_nat (S n) ≤ max_rowid) →
  ∀ v, v ∈ rows (db (post_root req app).2) → id v + Z.of_nat n ≤ max_rowid.
Proof.
  intros Htx Hp Hn Hroom v Hv.
  destruct (post_root_step req app Htx Hp) as [_ [Hsame|[e Happ]]].
  - rewrite Hsame in Hv. specialize (Hroom v Hv). lia.
  - rewrite Happ in Hv. apply elem_of_app in Hv as [Hv|Hv].
    + specialize (Hroom v Hv). lia.
    + apply list_elem_of_singleton in Hv as ->. cbn [id].
      destruct (next_id_cases (rowid_draw req) (rows (db app))) as [[_ ->]|(u & Hu & ->)].
      * intros w Hw. specialize (Hroom w Hw). lia.
      * lia.
      * specialize (Hroom u Hu). lia.
Qed.

Lemma run_rows_ascend (reqs : list Request) (app : App) :
  tx (db app) = [] → pending (db app) = [] →
  ∃ added,
    rows (db (run reqs app).2) = rows (db app) ++ added ∧
    (length added ≤ length reqs)%nat ∧
    tx (db (run reqs app).2) = [] ∧ pending (db (run reqs app).2) = [] ∧
    (Z.of_nat (length reqs) ≤ max_rowid →
     (∀ v, v ∈ rows (db app) → id v + Z.of_nat (length reqs) ≤ max_rowid) →
     ∀ i j old new,
       (rows (db app) ++ added) !! i = Some old →
       (rows (db app) ++ added) !! j = Some new →
       (i < j)%nat → (length (rows (db app)) ≤ j)%nat → id old < id new).
Proof.
  revert app. induction reqs as [|req reqs IH]; intros app Htx Hp.
  - exists []. cbn [run snd length]. rewrite app_nil_r. repeat (split; [done|]).
    intros _ _ i j old new _ Hj _ Hle. apply lookup_lt_Some in Hj. lia.
  - cbn [run].
    destruct (post_root_step req app Htx Hp) as [[Htx' Hp'] Hrows].
    pose proof (post_root_headroom req app (length reqs) Htx Hp) as Hroom'.
    destruct (post_root req app) as [response app'] eqn:Hstep. cbn [snd] in *.
    destruct (IH app' Htx' Hp') as (added & Heq & Hlen & Htx'' & Hp'' & Hids).
    destruct (run reqs app') as [responses app''] eqn:Hrun. cbn [snd] in *.
    destruct Hrows as [Hsame|[e Happ]].
    + exists added. rewrite Heq, Hsame. split; [done|]. split; [cbn; lia|].
      split; [done|]. split; [done|]. intros Hn Hroom. cbn [length] in Hn, Hroom.
      rewrite <- Hsame. apply Hids; [lia|]. by apply Hroom'.
    + eexists (_ :: added). rewrite Heq, Happ, <- app_assoc. split; [reflexivity|].
      split; [cbn; lia|]. split; [done|]. split; [done|].
      intros Hn Hroom i j old new Hi Hj Hlt Hle. cbn [length] in Hn, Hroom.
      destruct (decide (j = length (rows (db app)))) as [->|Hne].
      * rewrite lookup_app_r, Nat.sub_diag in Hj by lia. injection Hj as <-.
        rewrite lookup_app_l in Hi by lia. cbn [id].
        apply next_id_above; [|by eapply list_elem_of_lookup_2].
        intros w Hw. specialize (Hroom w Hw). lia.
      * rewrite cons_middle, app_assoc, <- Happ in Hi, Hj.
        apply (Hids ltac:(lia) (Hroom' Hn Hroom) i j old new Hi Hj Hlt).
        rewrite Happ, length_app. cbn. lia.
Qed.

(** X8. Over any sequence of submissions the table is append-only: the
    rows it had stay in front, in their order, at most one row is added
    for a submission, and no transaction or pending object is left open.
    As long as the keys stay below the largest possible one, every row
    added has a greater id than every row in front of it in the table,
    those it had and those added before, and so ids stay distinct. *)
Theorem run_append_only (reqs : list Request) (app : App) :
  store_wf app →
  ∃ added,
    rows (db (run reqs app).2) = rows (db app) ++ added ∧
    (length added ≤ length reqs)%nat ∧
    tx (db (run reqs app).2) = [] ∧ pending (db (run reqs app).2) = [] ∧
    (Z.of_nat (length reqs) ≤ max_rowid →
     (∀ v, v ∈ rows (db app) → id v + Z.of_nat (length reqs) ≤ max_rowid) →
     (∀ i j old new,
        (rows (db app) ++ added) !! i = Some old →
        (rows (db app) ++ added) !! j = Some new →
        (i < j)%nat → (length (rows (db app)) ≤ j)%nat → id old < id new) ∧
     NoDup (id <$> rows (db app) ++ added)).
Proof.
  intros (Htx & Hp & Hnd).
  destruct (run_rows_ascend reqs app Htx Hp) as (added & Heq & Hlen & Htx' & Hp' & Hids).
  exists added. repeat (split; [done|]). intros Hn Hroom.
  specialize (Hids Hn Hroom). split; [exact Hids|].
  apply NoDup_alt. intros i j x Hi Hj.
  apply list_lookup_fmap_Some in Hi as (old & -> & Hold).
  apply list_lookup_fmap_Some in Hj as (new & Hid & Hnew).
  destruct (decide (i = j)) as [|Hne]; [done|]. exfalso.
  assert (Hcmp : ∀ i j old new,
            (rows (db app) ++ added) !! i = Some old →
            (rows (db app) ++ added) !! j = Some new →
            (i < j)%nat → id old ≠ id new).
  { clear i j old new Hold Hnew Hid Hne. intros i j old new Hold Hnew Hlt Hid.
    destruct (decide (length (rows (db app)) ≤ j)%nat) as [Hle|Hgt].
    - specialize (Hids i j old new Hold Hnew Hlt Hle). lia.
    - rewrite lookup_app_l in Hold, Hnew by lia.
      assert (i = j); [|lia].
      apply (NoDup_lookup _ i j (id old) Hnd); rewrite list_lookup_fmap.
      + by rewrite Hold.
      + by rewrite Hnew, Hid. }
  destruct (decide (i < j)%nat).
  - by apply (Hcmp i j old new).
  - apply (Hcmp j i new old); [done|done|lia|done].
Qed.

(** The theorem at two submissions to a store of one vote. *)
Lemma run_append_only_witness :
  let vote_for voe t :=
    {| remote_addr := Some "203.0.113.7"%string; form_voe := Some voe;
       time := t; utcnow := 1000000000; storage := Healthy; random := 1 # 2;
       rowid_draw := λ _, 1 |} in
  let app := {| db := {| rows := [ {| id := 4; editor := vim; voted := 5 |} ];
                         tx := []; pending := [] |}; events := ∅ |} in
  let reqs := [vote_for "2"%string 1000%Q; vote_for "1"%string 2000%Q] in
  store_wf app ∧
  ∃ added, rows (db (run reqs app).2) = rows (db app) ++ added ∧
           (length added ≤ 2)%nat ∧
           NoDup (id <$> rows (db app) ++ added).
Proof.
  intros vote_for app reqs.
  assert (Hwf : store_wf app).
  { repeat split. apply (bool_decide_unpack _). vm_compute. exact I. }
  split; [exact Hwf|].
  destruct (run_append_only reqs app Hwf) as (added & Heq & Hlen & _ & _ & Hids).
  exists added. split; [exact Heq|]. split; [exact Hlen|].
  apply Hids; [by vm_compute|].
  intros v ->%list_elem_of_singleton. by vm_compute.
Defined.

Lemma post_root_accounting req app :
  tx (db app) = [] → pending (db app) = [] →
  storage req ≠ FailsOnRefresh →
  (status (post_root req app).1 = 302 ∧
   ∃ e, rows (db (post_root req app).2) =
          rows (db app) ++ [{| id := next_id (rowid_draw req) (rows (db app)); editor := e;
                               voted := utcnow req |}])
  ∨ (status (post_root req app).1 ≠ 302 ∧
     rows (db (post_root req app).2) = rows (db app)).
Proof.
  intros Htx Hp Hst.
  destruct (acquire_entry (get_remote_address req) 1 day (time req) (events app))
    as [[] events'] eqn:Hacq.
  2: { right. by rewrite (post_root_limited _ _ _ Hacq). }
  rewrite (post_root_admitted _ _ _ Hacq).
  destruct (selection_cases (form_voe req)) as [Hbad|[e Hsel]].
  { right. by rewrite (vote_bad_selection _ _ _ _ _ Hbad). }
  destruct (storage req) eqn:Hs; [| | |done].
  - left. rewrite (vote_stored _ _ _ _ _ Hsel Htx Hp). split; [done | by exists e].
  - right. by rewrite (vote_append_fails _ _ _ _ _ _ Hsel (or_introl eq_refl)).
  - right. by rewrite (vote_append_fails _ _ _ _ _ _ Hsel (or_intror eq_refl)).
Qed.

Lemma run_rows_count (reqs : list Request) (app : App) :
  tx (db app) = [] → pending (db app) = [] →
  Forall (λ req, storage req ≠ FailsOnRefresh) reqs →
  length (rows (db (run reqs app).2))
    = (length (rows (db app)) +
       length (filter (λ response, status response = 302%Z) (run reqs app).1))%nat.
Proof.
  intros Htx Hp Hst. revert app Htx Hp.
  induction Hst as [|req reqs Hreq _ IH]; intros app Htx Hp; [cbn; lia|].
  cbn [run]. pose proof (post_root_accounting req app Htx Hp Hreq) as Hstep.
  destruct (post_root_step req app Htx Hp) as [[Htx' Hp'] _].
  destruct (post_root req app) as [response app']. cbn [fst snd] in *.
  specialize (IH app' Htx' Hp').
  destruct (run reqs app') as [responses app'']. cbn [fst snd] in *.
  rewrite IH, filter_cons.
  destruct Hstep as [[H302 [e ->]]|[Hne ->]].
  - rewrite decide_True by done. rewrite length_app. cbn. lia.
  - rewrite decide_False by done. lia.
Qed.

(** X9. As long as the database can load a stored vote again, the table
    grows by one row for each submission answered with the redirect and
    by none for any other: the stored votes are as many as the accepted
    submissions. *)
Theorem run_rows_accounting (reqs : list Request) (app : App) :
  store_wf app →
  Forall (λ req, storage req ≠ FailsOnRefresh) reqs →
  length (rows (db (run reqs app).2))
    = (length (rows (db app)) +
       length (filter (λ response, status response = 302%Z) (run reqs app).1))%nat.
Proof.
  intros (Htx & Hp & _). by apply run_rows_count.
Qed.

(** The theorem at a vote, a second try and a stranger's bad submission. *)
Lemma run_rows_accounting_witness :
  let submit addr voe t :=
    {| remote_addr := Some addr; form_voe := Some voe;
       time := t; utcnow := 1000000000; storage := Healthy; random := 1 # 2;
       rowid_draw := λ _, 1 |} in
  let reqs := [ submit "203.0.113.7"%string "1"%string 1000%Q;
                submit "203.0.113.7"%string "2"%string 2000%Q;
                submit "198.51.100.2"%string "3"%string 3000%Q ] in
  let app := {| db := {| rows := []; tx := []; pending := [] |}; events := ∅ |} in
  length (rows (db (run reqs app).2)) = 1%nat.
Proof.
  intros submit reqs app.
  assert (Hwf : store_wf app) by (repeat split; constructor).
  assert (Hst : Forall (λ req, storage req ≠ FailsOnRefresh) reqs)
    by (repeat constructor; discriminate).
  exact (run_rows_accounting reqs app Hwf Hst).
Defined.

(** X10. When the commit has gone through and loading the new vote for
    the confirmation fails, the client is answered 500 although the vote
    is stored. *)
Theorem refresh_failure_keeps_vote (req : Request) (app : App) (e : Editor)
    (events' : gmap string (list Q)) :
  selects (form_voe req) e →
  storage req = FailsOnRefresh →
  store_wf app →
  acquire_entry (get_remote_address req) 1 day (time req) (events app)
    = (true, events') →
  status (post_root req app).1 = 500 ∧
  rows (db (post_root req app).2)
    = rows (db app) ++ [{| id := next_id (rowid_draw req) (rows (db app)); editor := e;
                           voted := utcnow req |}].
Proof.
  intros Hsel Hst (Htx & Hp & _) Hacq.
  rewrite (post_root_admitted _ _ _ Hacq), Hst.
  by rewrite (vote_refresh_fails _ _ _ _ _ Hsel Htx Hp).
Qed.

(** The theorem at a vote for vim. *)
Lemma refresh_failure_keeps_vote_witness :
  let req := {| remote_addr := Some "203.0.113.7"%string; form_voe := Some "1"%string;
                time := 1000; utcnow := 1000000000; storage := FailsOnRefresh;
                random := 1 # 2;
       rowid_draw := λ _, 1 |} in
  let app := {| db := {| rows := []; tx := []; pending := [] |}; events := ∅ |} in
  status (post_root req app).1 = 500 ∧
  rows (db (post_root req app).2) = [ {| id := 1; editor := vim; voted := 1000000000 |} ].
Proof.
  intros req app.
  assert (Hsel : selects (form_voe req) vim).
  { exists "1"%char, EmptyString, 1. repeat split; reflexivity. }
  assert (Hwf : store_wf app) by (repeat split; constructor).
  exact (refresh_failure_keeps_vote req app vim _ Hsel eq_refl Hwf eq_refl).
Defined.

(** ** More on the daily limit *)

(** X11. A submission is answered 429 exactly when the newest submission
    that the limiter let through from its address is no older than a day,
    the full day included; it then leaves the application as it was. *)
Theorem rate_limited_iff (req : Request) (app : App) :
  (status (post_root req app).1 = 429 ↔
   ∃ h, last_hit (events app) (get_remote_address req) = Some h ∧
        (time req - day <= h)%Q) ∧
  (status (post_root req app).1 = 429 → (post_root req app).2 = app).
Proof.
  destruct (post_root_status req app) as [(H429 & Hsame & _ & Hh)|[Hne Hev]].
  - split; [by split | done].
  - split; [|done]. split; [done|].
    intros (h & Hh & Hle). exfalso.
    pose proof (acquire_entry_recent _ _ _ _ Hh Hle) as Hacq.
    rewrite (post_root_limited _ _ _ Hacq) in Hne. by apply Hne.
Qed.

Lemma post_root_other_key req app key :
  get_remote_address req ≠ key →
  last_hit (events (post_root req app).2) key = last_hit (events app) key.
Proof.
  intros Hkey. destruct (post_root_status req app) as [(_ & -> & _)|[_ ->]]; [done|].
  rewrite last_hit_insert. by rewrite decide_False.
Qed.

Lemma run_keeps_last_hit reqs app key (last : option Q) :
  last_hit (events app) key = last →
  (∀ r, r ∈ reqs → get_remote_address r = key →
        ∃ h, last = Some h ∧ (time r - day <= h)%Q) →
  last_hit (events (run reqs app).2) key = last.
Proof.
  revert app. induction reqs as [|req reqs IH]; intros app Hlast Hreqs; [done|].
  cbn [run].
  assert (Hstep : last_hit (events (post_root req app).2) key = last).
  { destruct (decide (get_remote_address req = key)) as [Hk|Hk].
    - destruct (Hreqs req ltac:(left) Hk) as (h & -> & Hle).
      rewrite <- Hk in Hlast.
      pose proof (acquire_entry_recent _ _ _ _ Hlast Hle) as Hacq.
      rewrite (post_root_limited _ _ _ Hacq). cbn [snd]. by rewrite <- Hk.
    - by rewrite post_root_other_key. }
  destruct (post_root req app) as [response app']. cbn [snd] in Hstep.
  specialize (IH app' Hstep (λ r Hr, Hreqs r ltac:(by right))).
  by destruct (run reqs app').
Qed.

(** X12. Tries that are answered 429 do not prolong the wait: after a
    submission that the limiter let through, however many tries from the
    same address follow within the day and whatever other addresses send,
    a submission from that address more than a day after the first one is
    let through again. *)
Theorem limit_not_prolonged (app : App) (first : Request) (between : list Request)
    (second : Request) :
  get_remote_address first = get_remote_address second →
  status (post_root first app).1 ≠ 429 →
  (∀ r, r ∈ between → get_remote_address r = get_remote_address first →
        (time r - day <= time first)%Q) →
  (time first < time second - day)%Q →
  let app' := (run between (post_root first app).2).2 in
  status (post_root second app').1 ≠ 429 ∧
  last_hit (events (post_root second app').2) (get_remote_address second)
    = Some (time second).
Proof.
  intros Hkey Hadm Hbetween Hlate app'.
  assert (Hfirst : last_hit (events (post_root first app).2) (get_remote_address first)
                   = Some (time first)).
  { destruct (post_root_status first app) as [(H429 & _)|[_ ->]]; [done|].
    by rewrite last_hit_insert, decide_True. }
  apply (run_keeps_last_hit between) in Hfirst.
  2: { intros r Hr Hk. exists (time first). split; [done|]. by apply Hbetween. }
  fold app' in Hfirst. rewrite Hkey in Hfirst.
  destruct (post_root_status second app') as [(_ & _ & _ & h & Hh & Hle)|[Hne ->]].
  - rewrite Hfirst in Hh. injection Hh as <-. lra.
  - split; [exact Hne|]. by rewrite last_hit_insert, decide_True.
Qed.

(** The theorem at a vote, two tries within the day, one of them a
    stranger's, and a vote a little more than a day after the first. *)
Lemma limit_not_prolonged_witness :
  let submit addr t :=
    {| remote_addr := Some addr; form_voe := Some "1"%string;
       time := t; utcnow := 1000000000; storage := Healthy; random := 1 # 2;
       rowid_draw := λ _, 1 |} in
  let first := submit "203.0.113.7"%string 1000%Q in
  let between := [ submit "203.0.113.7"%string 80000%Q;
                   submit "198.51.100.2"%string 86000%Q ] in
  let second := submit "203.0.113.7"%string 87401%Q in
  let app := {| db := {| rows := []; tx := []; pending := [] |}; events := ∅ |} in
  status (post_root second (run between (post_root first app).2).2).1 ≠ 429.
Proof.
  intros submit first between second app.
  assert (Hadm : status (post_root first app).1 ≠ 429) by discriminate.
  assert (Hbetween : ∀ r, r ∈ between →
            get_remote_address r = get_remote_address first →
            (time r - day <= time first)%Q).
  { intros r [->|[->|[]%elem_of_nil]%elem_of_cons]%elem_of_cons Hk;
      [by vm_compute | discriminate Hk]. }
  assert (Hlate : (time first < time second - day)%Q) by by vm_compute.
  exact (proj1 (limit_not_prolonged app first between second eq_refl Hadm Hbetween Hlate)).
Defined.

(** X13. A submission refused with 400 or failed with 500 uses up the
    day as an accepted one does: the next submission from that address
    within the day is answered 429 and changes nothing, whatever it
    selects. *)
Theorem refused_submission_uses_the_day (app : App) (first : Request)
    (between : list Request) (second : Request) :
  get_remote_address first = get_remote_address second →
  (∀ r, r ∈ between ++ [second] → (time first <= time r)%Q) →
  (time second - time first <= day)%Q →
  status (post_root first app).1 = 400 ∨ status (post_root first app).1 = 500 →
  let app' := (run between (post_root first app).2).2 in
  post_root second app' = (error_handler (random second) RateLimitExceeded, app').
Proof.
  intros Hkey Hclock Hwin Hst. apply one_attempt_per_day; [done..|].
  destruct Hst as [-> | ->]; discriminate.
Qed.

(** The theorem at a mistyped selection followed by a valid one. *)
Lemma refused_submission_uses_the_day_witness :
  let submit voe t :=
    {| remote_addr := Some "203.0.113.7"%string; form_voe := Some voe;
       time := t; utcnow := 1000000000; storage := Healthy; random := 1 # 2;
       rowid_draw := λ _, 1 |} in
  let first := submit "vim"%string 1000%Q in
  let second := submit "1"%string 1060%Q in
  let app := {| db := {| rows := []; tx := []; pending := [] |}; events := ∅ |} in
  status (post_root first app).1 = 400 ∧
  status (post_root second (post_root first app).2).1 = 429 ∧
  rows (db (post_root second (post_root first app).2).2) = [].
Proof.
  intros submit first second app.
  assert (Hst : status (post_root first app).1 = 400) by reflexivity.
  assert (Hclock : ∀ r, r ∈ [] ++ [second] → (time first <= time r)%Q).
  { intros r [->|[]%elem_of_nil]%elem_of_cons. by vm_compute. }
  assert (Hwin : (time second - time first <= day)%Q) by by vm_compute.
  pose proof (refused_submission_uses_the_day app first [] second eq_refl Hclock Hwin
                (or_introl Hst)) as Hlim.
  cbv zeta in Hlim. cbn [run snd] in Hlim.
  split; [exact Hst|]. rewrite Hlim. split; reflexivity.
Defined.

(** X14. The limit of one address is untouched by the others: when the
    newest submission let through from an address, if any, is older than a
    day, a submission from it is let through after any submissions from
    other addresses. *)
Theorem other_addresses_do_not_limit (app : App) (between : list Request)
    (req : Request) :
  (∀ h, last_hit (events app) (get_remote_address req) = Some h →
        (h < time req - day)%Q) →
  (∀ r, r ∈ between → get_remote_address r ≠ get_remote_address req) →
  status (post_root req (run between app).2).1 ≠ 429.
Proof.
  intros Hold Hothers.
  assert (Hlast : last_hit (events (run between app).2) (get_remote_address req)
                  = last_hit (events app) (get_remote_address req)).
  { apply run_keeps_last_hit; [done|]. intros r Hr Hk. by destruct (Hothers r Hr). }
  destruct (post_root_status req (run between app).2)
    as [(_ & _ & _ & h & Hh & Hle)|[Hne _]]; [|exact Hne].
  rewrite Hlast in Hh. specialize (Hold h Hh). lra.
Qed.

(** The theorem at a first vote behind the votes of two other addresses. *)
Lemma other_addresses_do_not_limit_witness :
  let submit addr t :=
    {| remote_addr := Some addr; form_voe := Some "2"%string;
       time := t; utcnow := 1000000000; storage := Healthy; random := 1 # 2;
       rowid_draw := λ _, 1 |} in
  let between := [ submit "198.51.100.2"%string 1000%Q;
                   submit "192.0.2.9"%string 1001%Q ] in
  let req := submit "203.0.113.7"%string 1002%Q in
  let app := {| db := {| rows := []; tx := []; pending := [] |}; events := ∅ |} in
  status (post_root req (run between app).2).1 ≠ 429.
Proof.
  intros submit between req app.
  apply (other_addresses_do_not_limit app between req).
  - intros h Hh. discriminate Hh.
  - intros r [->|[->|[]%elem_of_nil]%elem_of_cons]%elem_of_cons; discriminate.
Defined.
